(** * Metacommunity: a shallow embedding of [src/metacommunity.h]

    The C++ class [model::Metacommunity<Individual>] owns a vector of
    patches, a global age and one ODE solver bound to itself; its methods
    mutate the patches in place, draw from R's process-wide random
    generator and may fail (an R error raised by a length check, or
    behaviour the language leaves undefined).  The embedding keeps this
    shape: every non-[const] method is a computation in a state monad
    with outcomes over the record [World], every [const] method is a
    function of the object.

    The collaborators defined in other files ([Patch], [ode::Solver],
    [Parameters]) and in R ([R::rbinom]) enter as interfaces (type
    classes); concrete instances follow further down and serve to run
    the code on explicit inputs. *)

From stdpp Require Import base list.
From Stdlib Require Import ZArith QArith Lia.

Close Scope Q_scope.

(** ** Outcomes of a call *)

(** R errors surfaced to the caller. *)
Inductive error : Type :=
| IncorrectLength (expected received : nat)
| IntegrationFailure.

(** Behaviour the C++ language leaves undefined. *)
Inductive undefined : Type :=
| NaNToInt          (* (int) applied to a NaN double *)
| OutOfBounds       (* std::vector operator[] or an iterator past the end *)
| SignedOverflow.   (* int arithmetic leaving the range of int *)

Inductive outcome (A : Type) : Type :=
| Ok (a : A)
| Throw (e : error)
| Undefined (u : undefined).

Arguments Ok {A} a.
Arguments Throw {A} e.
Arguments Undefined {A} u.

Definition is_ok {A} (r : outcome A) : bool :=
  match r with Ok _ => true | _ => false end.

Definition is_defined {A} (r : outcome A) : bool :=
  match r with Undefined _ => false | _ => true end.

(** ** Machine integers *)

Definition INT_MIN : Z := (- 2 ^ 31)%Z.
Definition INT_MAX : Z := (2 ^ 31 - 1)%Z.
Definition SIZE_MODULUS : Z := (2 ^ 64)%Z.

(** An [int] result: leaving the range is undefined behaviour. *)
Definition int_checked (z : Z) : outcome Z :=
  if ((INT_MIN <=? z) && (z <=? INT_MAX))%Z then Ok z
  else Undefined SignedOverflow.

(** A count of seeds that an [int] can hold. *)
Definition int_count (n : Z) : Prop := (0 <= n <= INT_MAX)%Z.

(** [j--] on a [size_t]: unsigned, wraps modulo 2^64. *)
Definition size_t_decr (j : Z) : Z := ((j - 1) mod SIZE_MODULUS)%Z.

(** ** The binomial sampler [R::rbinom]

    [double p = 1.0/(double)j] is either a finite double or, for
    [j = 0], positive infinity.  A finite [p] is kept as the rational
    [1/j]; rounding of the quotient does not move it across any of the
    comparisons [R::rbinom] makes ([p < 0], [p > 1], [p == 0], [p == 1])
    for [1 <= j < 2^64]. *)
Inductive prob : Type :=
| Fin (q : Q)
| Inf.

Definition recip (j : Z) : prob :=
  if (j =? 0)%Z then Inf else Fin (1 # Z.to_pos j).

(** The [double] that [R::rbinom] returns: an integer-valued count, or
    NaN. *)
Inductive draw : Type :=
| Val (k : Z)
| NaN.

(** [(int)] applied to the returned double. *)
Definition int_of_draw (d : draw) : outcome Z :=
  match d with
  | NaN => Undefined NaNToInt
  | Val k => int_checked k
  end.

(** The generator: [rbinom n p] reads and advances the process-wide
    generator state. *)
Class Sampler (rng : Type) : Type := {
  rbinom : Z -> prob -> rng -> draw * rng
}.

Definition valid_prob (q : Q) : bool :=
  (Qle_bool 0 q && Qle_bool q 1)%bool.

(** What R documents about [rbinom(n, p)]: NaN for a non-finite [p], a
    negative [n] or a [p] outside [0,1]; otherwise a count between 0 and
    [n], which is [n] itself when [p == 1]. *)
Class SamplerLaws (rng : Type) `{Sampler rng} : Prop := {
  rbinom_inf : forall n g, fst (rbinom n Inf g) = NaN;
  rbinom_invalid : forall n q g,
    (n < 0)%Z \/ valid_prob q = false -> fst (rbinom n (Fin q) g) = NaN;
  rbinom_range : forall n q g,
    (0 <= n)%Z -> valid_prob q = true ->
    exists k, fst (rbinom n (Fin q) g) = Val k /\ (0 <= k <= n)%Z;
  rbinom_one : forall n q g,
    (0 <= n)%Z -> Qeq_bool q 1 = true -> fst (rbinom n (Fin q) g) = Val n
}.

(** ** Parameters

    [Parameters] holds the number of patches (an [int]) and one trait
    setting per species; [parameters->size()] is the number of species. *)
Record Parameters (Strategy : Type) : Type := {
  n_patches : Z;
  strategies : list Strategy
}.

Arguments n_patches {Strategy} _.
Arguments strategies {Strategy} _.

Definition Parameters_size {Strategy} (p : Parameters Strategy) : nat :=
  length (strategies p).

(** ** The interface of [Patch<Individual>]

    The methods of [Patch] that [Metacommunity] calls.  A cursor
    ([ode::iter_const]) is the list of doubles still ahead of it; a
    reading method returns the advanced cursor, or [None] when it would
    run past the end.  A writing method ([ode_values], [ode_rates])
    returns the doubles it writes, in order. *)
Class PatchOps (D Strategy rng Patch : Type) : Type := {
  p_new : Parameters Strategy -> Patch;
  p_ode_size : Patch -> nat;
  p_ode_values_set : Patch -> list D -> option (Patch * list D);
  p_ode_values : Patch -> list D;
  p_ode_rates : Patch -> list D;
  p_births : Patch -> rng -> list Z * Patch * rng;
  p_deaths : Patch -> rng -> Patch * rng;
  p_add_seeds : list Z -> Patch -> rng -> Patch * rng;
  p_add_seedlings : list Z -> Patch -> Patch;
  p_r_n_individuals : Patch -> list Z;
  p_r_clear : Patch -> Patch
}.

(** The State Vector Protocol for a patch: [ode_values] writes exactly
    [ode_size] doubles, feeding them back through [ode_values_set]
    restores the patch and advances the cursor past them, and
    [ode_values_set] touches continuous state only. *)
Class PatchLaws (D Strategy rng Patch : Type)
    `{PatchOps D Strategy rng Patch} : Prop := {
  p_values_length : forall p, length (p_ode_values p) = p_ode_size p;
  p_values_set_values : forall p rest,
    p_ode_values_set p (p_ode_values p ++ rest) = Some (p, rest);
  p_values_set_frame : forall p it p' it',
    p_ode_values_set p it = Some (p', it') ->
    p_ode_size p' = p_ode_size p /\
    p_r_n_individuals p' = p_r_n_individuals p
}.

(** ** The solver interface [ode::Solver<Metacommunity>]

    The solver is bound to its target through a pointer and reaches it
    only through the [ode::OdeTarget] methods.  One call of a solver
    method is a finite dialogue with the target: [prog] lists the
    target methods the solver may call, each with a continuation for the
    answer. *)
Inductive prog (D A : Type) : Type :=
| Ret (a : A)
| Fail (e : error)
| CallDerivs (time : D) (y : list D) (k : list D -> prog D A)
| CallValuesSet (y : list D) (k : unit -> prog D A)
| CallValues (k : list D -> prog D A)
| CallRates (k : list D -> prog D A)
| CallSize (k : nat -> prog D A).

Arguments Ret {D A} a.
Arguments Fail {D A} e.
Arguments CallDerivs {D A} time y k.
Arguments CallValuesSet {D A} y k.
Arguments CallValues {D A} k.
Arguments CallRates {D A} k.
Arguments CallSize {D A} k.

Class SolverOps (D Solver : Type) : Type := {
  s_new : Solver;
  s_set_state : list D -> D -> Solver -> Solver;
  s_step : Solver -> prog D Solver;
  s_get_time : Solver -> D;
  s_reset : Solver -> Solver
}.

(** The solver methods [Metacommunity] calls, as recorded in the log of
    the world. *)
Inductive solver_call (D : Type) : Type :=
| SetState (y : list D) (time : D)
| Step
| GetTime
| Reset.

Arguments SetState {D} y time.
Arguments Step {D}.
Arguments GetTime {D}.
Arguments Reset {D}.

Definition is_reset {D} (c : solver_call D) : bool :=
  match c with Reset => true | _ => false end.

(** ** Integer matrices ([Rcpp::IntegerMatrix]), stored by column *)
Record IntegerMatrix : Type := {
  nrow : nat;
  ncol : nat;
  cells : list Z
}.

(** [seeds(Rcpp::_, i)], copied into a [std::vector<int>]. *)
Definition column (m : IntegerMatrix) (i : nat) : list Z :=
  take (nrow m) (drop (i * nrow m) (cells m)).

(** A buffer of [n] default elements overwritten from its beginning
    through an output iterator: writing past the end is undefined. *)
Definition write_from_begin {A} (n : nat) (zero : A) (vs : list A)
  : outcome (list A) :=
  if length vs <=? n then Ok (vs ++ replicate (n - length vs) zero)
  else Undefined OutOfBounds.

(** ** Helpers of namespace [util] *)

(** Modelled from the spec: [util::check_length] is declared in util.h,
    which is not among the sources.  Section 7 has malformed
    input "rejected eagerly at the API boundary ... surfaced to the
    caller": the check raises an R error when the received length
    differs from the expected one. *)
Definition check_length (received expected : nat) : outcome unit :=
  if received =? expected then Ok tt
  else Throw (IncorrectLength expected received).

Fixpoint sum_elementwise (a b : list Z) : outcome (list Z) :=
  match a, b with
  | x :: a', y :: b' =>
      match int_checked (x + y) with
      | Ok s =>
          match sum_elementwise a' b' with
          | Ok r => Ok (s :: r)
          | Throw e => Throw e
          | Undefined u => Undefined u
          end
      | Throw e => Throw e
      | Undefined u => Undefined u
      end
  | _, _ => Ok []
  end.

(** Modelled from the spec: [util::sum] is declared in util.h, which is
    not among the sources.  It adds two vectors of counts
    element by element; section 7 has count mismatches "checked at the
    boundary, surfaced as explicit failures", so vectors of different
    lengths are refused by [check_length]. *)
Definition util_sum (a b : list Z) : outcome (list Z) :=
  match check_length (length b) (length a) with
  | Ok _ => sum_elementwise a b
  | Throw e => Throw e
  | Undefined u => Undefined u
  end.

Module Model.
Section Embedding.

Context {D Strategy rng Patch Solver : Type}.
Context `{Sampler rng}.
Context `{PatchOps D Strategy rng Patch}.
Context `{SolverOps D Solver}.

(** The double [0.0]. *)
Variable dzero : D.

(** ** The object and the world around it *)

(** The data members of [Metacommunity<Individual>]. *)
Record Metacommunity : Type := {
  parameters : Parameters Strategy;
  patches : list Patch;
  age : D;
  ode_solver : Solver
}.

(** The object together with the state it shares with the process:
    [generator] is the state of R's generator as the C code sees it,
    [seed] the copy kept by the host ([.Random.seed]); [calls] logs the
    calls made on [ode_solver], oldest first. *)
Record World : Type := {
  self : Metacommunity;
  generator : rng;
  seed : rng;
  calls : list (solver_call D)
}.

Definition M (A : Type) : Type := World -> outcome A * World.

Definition ret {A} (a : A) : M A := fun w => (Ok a, w).

Definition bind {A B} (c : M A) (k : A -> M B) : M B :=
  fun w =>
    match c w with
    | (Ok a, w') => k a w'
    | (Throw e, w') => (Throw e, w')
    | (Undefined u, w') => (Undefined u, w')
    end.

Definition lift {A} (r : outcome A) : M A := fun w => (r, w).

Definition gets {A} (f : Metacommunity -> A) : M A :=
  fun w => (Ok (f (self w)), w).

Definition with_self (f : Metacommunity -> Metacommunity) : M unit :=
  fun w => (Ok tt, {| self := f (self w); generator := generator w;
                      seed := seed w; calls := calls w |}).

Definition set_patches (ps : list Patch) : M unit :=
  with_self (fun m => {| parameters := parameters m; patches := ps;
                         age := age m; ode_solver := ode_solver m |}).

Definition set_age (t : D) : M unit :=
  with_self (fun m => {| parameters := parameters m; patches := patches m;
                         age := t; ode_solver := ode_solver m |}).

Definition set_solver (s : Solver) : M unit :=
  with_self (fun m => {| parameters := parameters m; patches := patches m;
                         age := age m; ode_solver := s |}).

Definition log_call (c : solver_call D) : M unit :=
  fun w => (Ok tt, {| self := self w; generator := generator w;
                      seed := seed w; calls := calls w ++ [c] |}).

(** Run a patch method that draws from the generator. *)
Definition with_generator {A} (f : rng -> A * rng) : M A :=
  fun w =>
    let '(a, g) := f (generator w) in
    (Ok a, {| self := self w; generator := g;
              seed := seed w; calls := calls w |}).

Notation "'let*' x ':=' c 'in' k" := (bind c (fun x => k))
  (at level 10, x name, c at level 100, k at level 200).
Notation "'let*' ' pat ':=' c 'in' k" :=
  (bind c (fun x => match x with pat => k end))
  (at level 10, pat pattern, c at level 100, k at level 200).
Notation "c ';;' k" := (bind c (fun _ => k))
  (at level 100, k at level 200, right associativity).

(** ** Loops *)

(** [for (size_t i = 0; i < n; i++)] with the locals in [acc]. *)
Fixpoint for_each {A} (idxs : list nat) (body : nat -> A -> M A) (acc : A)
  : M A :=
  match idxs with
  | [] => ret acc
  | i :: rest => let* acc' := body i acc in for_each rest body acc'
  end.

(** ** Simple interrogation *)

Definition size (m : Metacommunity) : nat := length (patches m).

Definition r_age (m : Metacommunity) : D := age m.

Definition n_species (m : Metacommunity) : nat :=
  Parameters_size (parameters m).

(** ** The vector of patches *)

(** [patches[i]], or [*patch] for the iterator at position [i]: read
    and written in place. *)
Definition patch_at (i : nat) : M Patch :=
  let* ps := gets patches in
  match ps !! i with
  | Some p => ret p
  | None => lift (Undefined OutOfBounds)
  end.

Definition put_patch (i : nat) (p : Patch) : M unit :=
  let* ps := gets patches in set_patches (<[i := p]> ps).

(** [for (patch_iterator patch = patches.begin(); patch != patches.end();
    patch++)]: the iterator is the position of the patch it points at,
    from 0 up to the size of the vector, which no loop body changes. *)
Definition for_each_patch {A} (body : nat -> A -> M A) (acc : A) : M A :=
  let* sz := gets size in for_each (seq 0 sz) body acc.

(** ** Lower level parts of the main simulation *)

(** [patch->births()]: the patch is updated in place and its counts
    returned. *)
Definition patch_births (patch : nat) : M (list Z) :=
  let* p := patch_at patch in
  let* ' (b, p') :=
    with_generator (fun g => let '(b, p', g') := p_births p g in
                             ((b, p'), g')) in
  put_patch patch p' ;;
  ret b.

Definition births : M (list Z) :=
  let* sz := gets size in
  for_each_patch
    (fun patch n =>
       let* b := patch_births patch in
       lift (util_sum n b))
    (replicate sz 0%Z).

(** [patch->deaths()] *)
Definition patch_deaths (patch : nat) : M unit :=
  let* p := patch_at patch in
  let* p' := with_generator (p_deaths p) in
  put_patch patch p'.

Definition deaths : M unit :=
  for_each_patch (fun patch _ => patch_deaths patch) tt.

(** [seeds[i]] on a [std::vector<int>] *)
Definition vector_at (v : list Z) (i : nat) : outcome Z :=
  match v !! i with
  | Some x => Ok x
  | None => Undefined OutOfBounds
  end.

(** The body of the inner loop of [add_seeds], for one index [i]; the
    locals are [j], [seeds] and [seeds_i], and [j--] belongs to the
    increment of this loop. *)
Definition add_seeds_draw (p : prob) (i : nat)
    (locals : Z * list Z * list Z) : M (Z * list Z * list Z) :=
  let '(j, seeds, seeds_i) := locals in
  let* n := lift (vector_at seeds i) in
  let* d := with_generator (rbinom n p) in
  let* k := lift (int_of_draw d) in
  let* r := lift (int_checked (n - k)) in
  ret (size_t_decr j, <[i := r]> seeds, <[i := k]> seeds_i).

(** [patch->add_seeds(seeds_i)] *)
Definition patch_add_seeds (patch : nat) (seeds_i : list Z) : M unit :=
  let* p := patch_at patch in
  let* p' := with_generator (p_add_seeds seeds_i p) in
  put_patch patch p'.

(** The body of the loop over the patches in [add_seeds]; the locals
    that outlive it are [j], [seeds] and the allocation so far. *)
Definition add_seeds_patch (sz : nat) (patch : nat)
    (locals : Z * list Z * list (list Z)) : M (Z * list Z * list (list Z)) :=
  let '(j, seeds, allocation) := locals in
  let seeds_i := replicate sz 0%Z in
  let p := recip j in
  let* ' (j', seeds', seeds_i') :=
    for_each (seq 0 sz) (add_seeds_draw p) (j, seeds, seeds_i) in
  patch_add_seeds patch seeds_i' ;;
  ret (j', seeds', allocation ++ [seeds_i']).

(** [add_seeds] returns nothing in the source; the embedding returns the
    vectors [seeds_i] it handed to the patches, in patch order, so that
    the allocation can be stated. *)
Definition add_seeds (seeds : list Z) : M (list (list Z)) :=
  let* sz := gets size in
  let* ' (_, _, allocation) :=
    for_each_patch (add_seeds_patch sz) (Z.of_nat sz, seeds, []) in
  ret allocation.

(** ** ODE interface *)

(** [size_t] counts of doubles held in memory are kept as [nat]: their
    sum is bounded by the address space and does not wrap. *)
Definition ode_size (m : Metacommunity) : nat :=
  fold_left (fun ret patch => ret + p_ode_size patch) (patches m) 0.

(** [it = patch->ode_values_set(it)] *)
Definition patch_ode_values_set (patch : nat) (it : list D) : M (list D) :=
  let* p := patch_at patch in
  match p_ode_values_set p it with
  | Some (p', it') => put_patch patch p' ;; ret it'
  | None => lift (Undefined OutOfBounds)
  end.

Definition ode_values_set (it : list D) : M (list D) :=
  for_each_patch patch_ode_values_set it.

(** What the loop writes through the output iterator, in order. *)
Definition ode_values (m : Metacommunity) : list D :=
  fold_left (fun out patch => out ++ p_ode_values patch) (patches m) [].

Definition ode_rates (m : Metacommunity) : list D :=
  fold_left (fun out patch => out ++ p_ode_rates patch) (patches m) [].

Definition derivs (time : D) (y : list D) : M (list D) :=
  ode_values_set y ;;
  gets ode_rates.

(** ** The solver at work *)

(** The target end of the dialogue: every call of the solver on its
    target is answered by the method of this object. *)
Fixpoint run {A} (c : prog D A) : M A :=
  match c with
  | Ret a => ret a
  | Fail e => lift (Throw e)
  | CallDerivs time y k => let* dydt := derivs time y in run (k dydt)
  | CallValuesSet y k => ode_values_set y ;; run (k tt)
  | CallValues k => let* y := gets ode_values in run (k y)
  | CallRates k => let* dydt := gets ode_rates in run (k dydt)
  | CallSize k => let* n := gets ode_size in run (k n)
  end.

(** Modelled from the spec: [ode::Solver::set_state] is declared in
    ode_solver.h, which is not among the sources.  Section
    4.2: it "initializes internal buffers from an explicit state vector
    and time; fails if the vector length does not match the target's
    [ode_size()]". *)
Definition solver_set_state (y : list D) (time : D) : M unit :=
  log_call (SetState y time) ;;
  let* n := gets ode_size in
  lift (check_length (length y) n) ;;
  let* s := gets ode_solver in
  set_solver (s_set_state y time s).

(** Modelled from the spec: [ode::Solver::step] is declared in
    ode_solver.h, which is not among the sources.  Section
    4.2: one adaptive step, which completes "with updated state and
    advanced time" or signals a hard failure; the solver reaches the
    target through the State Vector Protocol and [derivs] only. *)
Definition solver_step : M unit :=
  log_call Step ;;
  let* s := gets ode_solver in
  let* s' := run (s_step s) in
  set_solver s'.

Definition solver_get_time : M D :=
  log_call GetTime ;;
  gets (fun m => s_get_time (ode_solver m)).

(** Modelled from the spec: [ode::Solver::reset] is declared in
    ode_solver.h, which is not among the sources.  Section
    4.2: it "clears internal step-size adaptation history". *)
Definition solver_reset : M unit :=
  log_call Reset ;;
  let* s := gets ode_solver in
  set_solver (s_reset s).

(** ** Main simulation control *)

Definition step_deterministic : M unit :=
  let* n := gets ode_size in
  let* values := gets ode_values in
  let* y := lift (write_from_begin n dzero values) in
  let* time := gets age in
  solver_set_state y time ;;
  solver_step ;;
  let* time' := solver_get_time in
  set_age time'.

Definition step_stochastic : M unit :=
  deaths ;;
  let* seeds := births in
  add_seeds seeds ;;
  ret tt.

Definition step : M unit :=
  step_deterministic ;;
  step_stochastic.

(** ** R interface *)

(** Each column is a patch, each row a species. *)
Definition r_add_seedlings (seeds : IntegerMatrix) : M unit :=
  let* sz := gets size in
  let* ns := gets n_species in
  lift (check_length (ncol seeds) sz) ;;
  lift (check_length (nrow seeds) ns) ;;
  for_each (seq 0 sz)
    (fun i _ =>
       let seeds_i := column seeds i in
       let* patch := patch_at i in
       put_patch i (p_add_seedlings seeds_i patch))
    tt.

Definition r_n_individuals (m : Metacommunity) : outcome IntegerMatrix :=
  let written :=
    fold_left (fun out patch => out ++ p_r_n_individuals patch)
              (patches m) [] in
  match write_from_begin (n_species m * size m) 0%Z written with
  | Ok c => Ok {| nrow := n_species m; ncol := size m; cells := c |}
  | Throw e => Throw e
  | Undefined u => Undefined u
  end.

(** [it->r_clear()] *)
Definition patch_r_clear (patch : nat) : M unit :=
  let* p := patch_at patch in
  put_patch patch (p_r_clear p).

Definition r_clear : M unit :=
  set_age dzero ;;
  for_each_patch (fun patch _ => patch_r_clear patch) tt ;;
  solver_reset.

(** [Rcpp::RNGScope]: the constructor loads the generator state from
    the host ([GetRNGstate]), the destructor stores it back
    ([PutRNGstate]), on normal exit and when an error unwinds the
    scope. *)
Definition GetRNGstate (w : World) : World :=
  {| self := self w; generator := seed w; seed := seed w;
     calls := calls w |}.

Definition PutRNGstate (w : World) : World :=
  {| self := self w; generator := generator w; seed := generator w;
     calls := calls w |}.

Definition RNGScope {A} (body : M A) : M A :=
  fun w =>
    match body (GetRNGstate w) with
    | (Undefined u, w') => (Undefined u, w')
    | (r, w') => (r, PutRNGstate w')
    end.

Definition r_step : M unit := RNGScope step.

Definition r_step_stochastic : M unit := RNGScope step_stochastic.

(** ** Construction *)

(** [initialise]: clear the vector, then push one fresh patch per
    [parameters->n_patches]. *)
Definition initialise (m : Metacommunity) : Metacommunity :=
  {| parameters := parameters m;
     patches := Nat.iter (Z.to_nat (n_patches (parameters m)))
                         (fun ps => ps ++ [p_new (parameters m)]) [];
     age := age m;
     ode_solver := ode_solver m |}.

Definition Metacommunity_new (p : Parameters Strategy) : Metacommunity :=
  initialise {| parameters := p; patches := []; age := dzero;
                ode_solver := s_new |}.

(** ** Statements about states

    The invariant of section 3: [ode_size()] is the sum of [ode_size()]
    over the patches. *)
Definition ode_size_invariant (m : Metacommunity) : Prop :=
  ode_size m = sum_list (p_ode_size <$> patches m).

(** What a computation leaves alone: [preserves view c] says that the
    part of the world that [view] shows is the same after [c] as before
    it, whatever the outcome. *)
Definition preserves {V A} (view : World -> V) (c : M A) : Prop :=
  forall w, view (snd (c w)) = view w.

(** The solver as the object holds it, with the log of the calls made
    on it. *)
Definition solver_view (w : World) : list (solver_call D) * Solver :=
  (calls w, ode_solver (self w)).

(** What the deterministic step has no business changing: the
    parameters, the generator, and of each patch its number of state
    variables and its counts of individuals per species. *)
Definition patch_view (p : Patch) : nat * list Z :=
  (p_ode_size p, p_r_n_individuals p).

Definition frame_view (w : World)
  : Parameters Strategy * rng * rng * list (nat * list Z) :=
  (parameters (self w), generator w, seed w,
   map patch_view (patches (self w))).

(** The calls a computation makes on the solver, from world [w]: it
    appends a prefix of [expected] to the log, and all of [expected]
    when it succeeds. *)
Definition logs_at {A} (w : World) (expected : list (solver_call D))
    (c : M A) : Prop :=
  exists l, calls (snd (c w)) = calls w ++ l /\
            l `prefix_of` expected /\
            (is_ok (fst (c w)) = true -> l = expected).

(** Two worlds that agree on the object and on the state of the
    generator; they may differ in the host's copy of the seed and in the
    log. *)
Definition same_run (w1 w2 : World) : Prop :=
  self w1 = self w2 /\ generator w1 = generator w2.

(** A computation is [reproducible] when from two such worlds it has the
    same outcome and leaves two such worlds. *)
Definition reproducible {A} (c : M A) : Prop :=
  forall w1 w2, same_run w1 w2 ->
    fst (c w1) = fst (c w2) /\ same_run (snd (c w1)) (snd (c w2)).

(** ** The allocation scheme as the specification words it

    Section 4.4: "process patches in a fixed order; for the k-th
    remaining patch out of j patches not yet processed, draw
    Binomial(remaining_seeds, 1/j) seeds for that patch, subtract from
    the remaining pool, decrement j, continue."  The scheme is per
    species, over a generator passed explicitly. *)
Fixpoint spec_draw_species (p : prob) (remaining : list Z) (g : rng)
  : list Z * list Z * rng :=
  match remaining with
  | [] => ([], [], g)
  | n :: rest =>
      let '(d, g1) := rbinom n p g in
      let k := match d with Val k => k | NaN => 0%Z end in
      let '(ks, rs, g2) := spec_draw_species p rest g1 in
      (k :: ks, (n - k)%Z :: rs, g2)
  end.

Fixpoint spec_allocate (j : nat) (remaining : list Z) (g : rng)
  : list (list Z) * rng :=
  match j with
  | 0 => ([], g)
  | S j' =>
      let '(ks, rs, g1) := spec_draw_species (recip (Z.of_nat j)) remaining g in
      let '(rows, g2) := spec_allocate j' rs g1 in
      (ks :: rows, g2)
  end.

(** The per-species totals of an allocation: the entry for species [i]
    sums what the patches received for it; a patch whose vector has no
    entry [i] received nothing for that species. *)
Definition column_sum (allocation : list (list Z)) (i : nat) : Z :=
  foldr Z.add 0%Z (map (fun row => default 0%Z (row !! i)) allocation).

Definition allocated (n_spp : nat) (allocation : list (list Z)) : list Z :=
  map (column_sum allocation) (seq 0 n_spp).

End Embedding.
End Model.

(** ** A generator that keeps a record of what it is asked

    A stand-in for R's generator, used to run the code on explicit
    inputs.  It answers as R documents [rbinom]: NaN for a non-finite
    or out-of-range [p] and for a negative [n], 0 for [n = 0] or
    [p == 0], [n] for [p == 1], and otherwise a count between 0 and [n]
    derived from a linear congruential state.  Every request is appended
    to [requests]. *)
Module Tape.

Record rng : Type := {
  state : Z;
  requests : list (Z * prob)
}.

Definition advance (s : Z) : Z := ((s * 1103515245 + 12345) mod 2 ^ 31)%Z.

Definition asked (n : Z) (p : prob) (s : Z) (g : rng) : rng :=
  {| state := s; requests := requests g ++ [(n, p)] |}.

Definition rbinom_tape (n : Z) (p : prob) (g : rng) : draw * rng :=
  match p with
  | Inf => (NaN, asked n p (state g) g)
  | Fin q =>
      if ((n <? 0)%Z || negb (valid_prob q))%bool
      then (NaN, asked n p (state g) g)
      else if ((n =? 0)%Z || Qeq_bool q 0)%bool
      then (Val 0, asked n p (state g) g)
      else if Qeq_bool q 1
      then (Val n, asked n p (state g) g)
      else (Val (state g mod (n + 1)), asked n p (advance (state g)) g)
  end.

#[global] Instance sampler : Sampler rng := {| rbinom := rbinom_tape |}.

Definition fresh (s : Z) : rng := {| state := s; requests := [] |}.

End Tape.

(** ** A patch as the specification describes it *)
Module SpecPatch.

(** Modelled from the spec: the growth model (Strategy, Plant) is not
    among the sources.  Section 3 has an individual's continuous state
    include "at least height" and has it created "with height fixed at
    a species-specific germination height"; a strategy gives, per
    species, the germination height and the growth rate, fecundity and
    death probability as functions of height. *)
Record Strategy : Type := {
  height_0 : Q;
  growth_rate : Q -> Q;
  fecundity : Q -> Z;
  death_probability : Q -> Q
}.

(** Modelled from the spec: the individual of section 3, with height as
    its one state variable. *)
Record Individual : Type := { height : Q }.

(** Modelled from the spec: patch.h is not among the sources.  Section
    3: per-patch state is the "age since last disturbance" and an
    "ordered collection of per-species cohort lists", each an ordered
    sequence of individuals, oldest first. *)
Record Patch : Type := {
  traits : list Strategy;
  patch_age : Q;
  species : list (list Individual)
}.

(** Modelled from the spec: the constructor of [Patch] (patch.h), one
    empty cohort list per species of the parameters. *)
Definition Patch_new (p : Parameters Strategy) : Patch :=
  {| traits := strategies p; patch_age := 0%Q;
     species := replicate (length (strategies p)) [] |}.

Definition with_species (p : Patch) (spp : list (list Individual)) : Patch :=
  {| traits := traits p; patch_age := patch_age p; species := spp |}.

(** Modelled from the spec: [Patch::ode_size] (patch.h).  Section 4.3:
    the State Vector Protocol "over contained species' individuals, in
    species-index then cohort-insertion order"; every individual
    contributes its height. *)
Definition Patch_ode_size (p : Patch) : nat :=
  foldr Nat.add 0 (map length (species p)).

(** Modelled from the spec: [Patch::ode_values] (patch.h), the heights
    in the order of section 4.3. *)
Definition Patch_ode_values (p : Patch) : list Q :=
  concat (map (map height) (species p)).

Fixpoint cohort_values_set (c : list Individual) (it : list Q)
  : option (list Individual * list Q) :=
  match c with
  | [] => Some ([], it)
  | _ :: c' =>
      match it with
      | [] => None
      | h :: it' =>
          match cohort_values_set c' it' with
          | Some (c'', it'') => Some ({| height := h |} :: c'', it'')
          | None => None
          end
      end
  end.

Fixpoint species_values_set (spp : list (list Individual)) (it : list Q)
  : option (list (list Individual) * list Q) :=
  match spp with
  | [] => Some ([], it)
  | c :: spp' =>
      match cohort_values_set c it with
      | Some (c', it') =>
          match species_values_set spp' it' with
          | Some (spp'', it'') => Some (c' :: spp'', it'')
          | None => None
          end
      | None => None
      end
  end.

(** Modelled from the spec: [Patch::ode_values_set] (patch.h).  Section
    4.1: it "consumes exactly [ode_size()] values from the cursor,
    writing them into the component's own state ... returns the advanced
    cursor"; here one height per individual, in the order of section
    4.3. *)
Definition Patch_ode_values_set (p : Patch) (it : list Q)
  : option (Patch * list Q) :=
  match species_values_set (species p) it with
  | Some (spp, it') => Some (with_species p spp, it')
  | None => None
  end.

(** Modelled from the spec: [Patch::ode_rates] (patch.h), the growth
    rate of every individual in the order of section 4.3. *)
Definition Patch_ode_rates (p : Patch) : list Q :=
  concat (zip_with (fun s c => map (fun i => growth_rate s (height i)) c)
                   (traits p) (species p)).

(** Modelled from the spec: [Patch::births] (patch.h).  Section 4.3:
    "for every surviving individual, evaluates a species-specific
    fecundity function of its current state and sums to a per-species
    total seed count produced by this patch". *)
Definition Patch_births {rng} (p : Patch) (g : rng) : list Z * Patch * rng :=
  (zip_with
     (fun s c => foldr Z.add 0%Z (map (fun i => fecundity s (height i)) c))
     (traits p) (species p),
   p, g).

Fixpoint cohort_deaths {rng} `{Sampler rng} (s : Strategy)
    (c : list Individual) (g : rng) : list Individual * rng :=
  match c with
  | [] => ([], g)
  | i :: c' =>
      let '(d, g1) := rbinom 1 (Fin (death_probability s (height i))) g in
      let '(c'', g2) := cohort_deaths s c' g1 in
      match d with
      | Val 0 => (i :: c'', g2)
      | _ => (c'', g2)
      end
  end.

Fixpoint species_deaths {rng} `{Sampler rng} (ss : list Strategy)
    (spp : list (list Individual)) (g : rng) : list (list Individual) * rng :=
  match ss, spp with
  | s :: ss', c :: spp' =>
      let '(c', g1) := cohort_deaths s c g in
      let '(spp'', g2) := species_deaths ss' spp' g1 in
      (c' :: spp'', g2)
  | _, _ => (spp, g)
  end.

(** Modelled from the spec: [Patch::deaths] (patch.h).  Section 4.3:
    "for every individual in every species cohort, evaluates a
    species-specific, state-dependent death probability and removes
    individuals that die; removal must preserve relative order of
    survivors".  The roll is one Bernoulli draw per individual; the
    disturbance hazard, which the spec leaves to the growth model, is
    not part of this patch. *)
Definition Patch_deaths {rng} `{Sampler rng} (p : Patch) (g : rng)
  : Patch * rng :=
  let '(spp, g') := species_deaths (traits p) (species p) g in
  (with_species p spp, g').

Fixpoint germinate (ss : list Strategy) (spp : list (list Individual))
    (counts : list Z) : list (list Individual) :=
  match ss, spp, counts with
  | s :: ss', c :: spp', n :: counts' =>
      (c ++ replicate (Z.to_nat n) {| height := height_0 s |})
        :: germinate ss' spp' counts'
  | _, _, _ => spp
  end.

(** Modelled from the spec: [Patch::add_seedlings] (patch.h).  Section
    4.3: "host-facing direct seedling injection"; the seedlings are
    appended to the cohort of their species at germination height, and
    a species without an entry in the vector receives none. *)
Definition Patch_add_seedlings (counts : list Z) (p : Patch) : Patch :=
  with_species p (germinate (traits p) (species p) counts).

(** Modelled from the spec: [Patch::add_seeds] (patch.h).  Section 4.3:
    it "converts the given counts of seeds for this patch into new
    seedling individuals appended to the corresponding species cohort,
    each initialized at germination height". *)
Definition Patch_add_seeds {rng} (counts : list Z) (p : Patch) (g : rng)
  : Patch * rng :=
  (Patch_add_seedlings counts p, g).

(** Modelled from the spec: [Patch::r_n_individuals] (patch.h), the
    live individuals per species (section 6). *)
Definition Patch_r_n_individuals (p : Patch) : list Z :=
  map (fun c => Z.of_nat (length c)) (species p).

(** Modelled from the spec: [Patch::r_clear] (patch.h).  Section 4.3:
    it "resets patch to empty state and age 0". *)
Definition Patch_r_clear (p : Patch) : Patch :=
  {| traits := traits p; patch_age := 0%Q;
     species := map (fun _ => []) (species p) |}.

#[global] Instance patch_ops {rng} `{Sampler rng}
  : PatchOps Q Strategy rng Patch := {|
  p_new := Patch_new;
  p_ode_size := Patch_ode_size;
  p_ode_values_set := Patch_ode_values_set;
  p_ode_values := Patch_ode_values;
  p_ode_rates := Patch_ode_rates;
  p_births := Patch_births;
  p_deaths := Patch_deaths;
  p_add_seeds := Patch_add_seeds;
  p_add_seedlings := Patch_add_seedlings;
  p_r_n_individuals := Patch_r_n_individuals;
  p_r_clear := Patch_r_clear
|}.

End SpecPatch.

(** ** A one-stage solver *)
Module Euler.

(** Modelled from the spec: ode_solver.h is not among the sources.
    Section 4.2 asks for an embedded Runge-Kutta scheme with a step-size
    controller; this stand-in keeps the state vector, the time and a
    step size [h]. *)
Record Solver : Type := {
  y : list Q;
  time : Q;
  h : Q
}.

Definition h_initial : Q := 1 # 10.

Definition Solver_new : Solver := {| y := []; time := 0; h := h_initial |}.

(** Modelled from the spec: [Solver::set_state] (ode_solver.h), section
    4.2: it "initializes internal buffers from an explicit state vector
    and time". *)
Definition Solver_set_state (y0 : list Q) (t0 : Q) (s : Solver) : Solver :=
  {| y := y0; time := t0; h := h s |}.

(** Modelled from the spec: [Solver::step] (ode_solver.h).  The
    dialogue with the target of section 4.2, with a single explicit
    Euler stage: one [derivs] call at the current state, then the new
    state written back. *)
Definition euler_step (s : Solver) : prog Q Solver :=
  CallDerivs (time s) (y s) (fun dydt =>
    let y' := zip_with (fun v d => Qred (v + h s * d)) (y s) dydt in
    CallValuesSet y' (fun _ =>
      Ret {| y := y'; time := Qred (time s + h s); h := h s |})).

(** Modelled from the spec: [Solver::reset] (ode_solver.h), section
    4.2: it "clears internal step-size adaptation history"; here the
    step size returns to its initial value. *)
Definition Solver_reset (s : Solver) : Solver :=
  {| y := y s; time := time s; h := h_initial |}.

#[global] Instance solver_ops : SolverOps Q Solver := {|
  s_new := Solver_new;
  s_set_state := Solver_set_state;
  s_step := euler_step;
  s_get_time := time;
  s_reset := Solver_reset
|}.

End Euler.

(** ** Explicit inputs *)
Module Demo.
Import Model.

(** One species: seedlings germinate at height 1/2, grow at unit rate,
    bear two seeds each and never die. *)
Definition tree : SpecPatch.Strategy :=
  {| SpecPatch.height_0 := 1 # 2;
     SpecPatch.growth_rate := fun _ => 1%Q;
     SpecPatch.fecundity := fun _ => 2%Z;
     SpecPatch.death_probability := fun _ => 0%Q |}.

Definition params (n : Z) (n_spp : nat) : Parameters SpecPatch.Strategy :=
  {| n_patches := n; strategies := replicate n_spp tree |}.

Definition Universe : Type :=
  @World Q SpecPatch.Strategy Tape.rng SpecPatch.Patch Euler.Solver.

(** A freshly constructed metacommunity of [n] patches and [n_spp]
    species, with the generator in state [s]. *)
Definition empty_world (n : Z) (n_spp : nat) (s : Z) : Universe :=
  {| self := Metacommunity_new (rng := Tape.rng) 0%Q (params n n_spp);
     generator := Tape.fresh s;
     seed := Tape.fresh s;
     calls := [] |}.

(** The same after [r_add_seedlings] of one seedling per species and
    patch. *)
Definition seeded_world (n : nat) (n_spp : nat) (s : Z) : Universe :=
  snd (r_add_seedlings
         {| nrow := n_spp; ncol := n; cells := replicate (n_spp * n) 1%Z |}
         (empty_world (Z.of_nat n) n_spp s)).

Definition census (w : Universe) : list (list Z) :=
  map SpecPatch.Patch_r_n_individuals (patches (self w)).

(** The same object and generator in a process whose host seed is [s]
    and whose solver has been reset before. *)
Definition other_host (w : Universe) (s : Z) : Universe :=
  {| self := self w; generator := generator w; seed := Tape.fresh s;
     calls := [Reset] |}.

(** The same object and host seed in a process whose generator was left
    in state [s] by earlier draws. *)
Definition stale_generator (w : Universe) (s : Z) : Universe :=
  {| self := self w; generator := Tape.fresh s; seed := seed w;
     calls := [Reset] |}.

(** A seedling matrix for three patches and two species. *)
Definition three_columns : IntegerMatrix :=
  {| nrow := 2; ncol := 3; cells := replicate 6 1%Z |}.

End Demo.

(** ** What the loops over the patches amount to

    Descriptions used to state what the remaining operations do: a
    second law of the State Vector Protocol, the world with its patches
    and generator replaced, a left-to-right pass over the patches that
    hands the generator from one patch to the next, and two more views
    of the world. *)

(** The other half of the State Vector Protocol for a patch:
    [ode_values_set] writes what it consumes, so that the values read
    back, followed by the rest of the cursor, are the cursor it was
    given. *)
Class PatchWriteLaws (D Strategy rng Patch : Type)
    `{PatchOps D Strategy rng Patch} : Prop := {
  p_values_set_written : forall p it p' it',
    p_ode_values_set p it = Some (p', it') -> p_ode_values p' ++ it' = it
}.

Module Further.
Import Model.
Section Descriptions.

Context {D Strategy rng Patch Solver : Type}.
Context `{Sampler rng}.
Context `{PatchOps D Strategy rng Patch}.
Context `{SolverOps D Solver}.

Abbreviation World := (@World D Strategy rng Patch Solver).

(** The world with the vector of patches and the generator state
    replaced, everything else as it was. *)
Definition rewritten (ps : list Patch) (g : rng) (w : World) : World :=
  {| self := {| parameters := parameters (self w); patches := ps;
                age := age (self w); ode_solver := ode_solver (self w) |};
     generator := g; seed := seed w; calls := calls w |}.

(** One pass over the patches from position [i] on: [f] sees the
    position, the patch and the generator as the patches before left
    it. *)
Fixpoint thread (f : nat -> Patch -> rng -> Patch * rng) (i : nat)
    (ps : list Patch) (g : rng) : list Patch * rng :=
  match ps with
  | [] => ([], g)
  | p :: ps' =>
      let '(p', g1) := f i p g in
      let '(ps'', g2) := thread f (S i) ps' g1 in
      (p' :: ps'', g2)
  end.

(** The number of patches and the parameters. *)
Definition layout (w : World) : nat * Parameters Strategy :=
  (size (self w), parameters (self w)).

(** The age, the solver with the calls made on it, and the host's
    seed. *)
Definition clock_view (w : World)
  : D * Solver * list (solver_call D) * rng :=
  (age (self w), ode_solver (self w), calls w, seed w).

(** The outcomes of reading a cursor: success, or a read past its
    end. *)
Definition ok_or_past_end {A} (r : outcome A) : Prop :=
  match r with
  | Ok _ => True
  | Undefined OutOfBounds => True
  | _ => False
  end.

End Descriptions.
End Further.

(** ** A solver whose step gives up *)
Module Stalled.
Import Model.

(** Modelled from the spec: ode_solver.h is not among the sources.
    Section 4.2 has a step "signal a hard failure if the step size
    underflows a minimum threshold"; this stand-in sits at that
    threshold: it keeps the state vector and the time it is given, and
    every step asks the target for the derivative once and gives up. *)
Record StalledSolver : Type := {
  held : list Q;
  clock : Q
}.

Definition Stalled_new : StalledSolver := {| held := []; clock := 0 |}.

(** Modelled from the spec: [Solver::set_state] (ode_solver.h), section
    4.2: it "initializes internal buffers from an explicit state vector
    and time". *)
Definition Stalled_set_state (y0 : list Q) (t0 : Q) (_ : StalledSolver)
  : StalledSolver :=
  {| held := y0; clock := t0 |}.

(** Modelled from the spec: [Solver::step] (ode_solver.h), outcome (b)
    of section 4.2: one [derivs] call at the current state, then the
    hard failure, which section 7 calls an integration failure. *)
Definition stalled_step (s : StalledSolver) : prog Q StalledSolver :=
  CallDerivs (clock s) (held s) (fun _ => Fail IntegrationFailure).

Definition stalled_ops : SolverOps Q StalledSolver := {|
  s_new := Stalled_new;
  s_set_state := Stalled_set_state;
  s_step := stalled_step;
  s_get_time := clock;
  s_reset := fun s => s
|}.

Definition StalledUniverse : Type :=
  @World Q SpecPatch.Strategy Tape.rng SpecPatch.Patch StalledSolver.

(** The patches, the age and the generator of [w], driven by this
    solver. *)
Definition stalled (w : Demo.Universe) : StalledUniverse :=
  {| self := {| parameters := parameters (self w);
                patches := patches (self w);
                age := age (self w);
                ode_solver := Stalled_new |};
     generator := generator w;
     seed := seed w;
     calls := calls w |}.

End Stalled.

(** ** A species with mortality *)
Module Mortal.
Import Model.

(** One species: as [Demo.tree], but every individual dies with
    probability 1/2 at each stochastic step, so that [deaths] draws
    from the generator in earnest. *)
Definition shrub : SpecPatch.Strategy :=
  {| SpecPatch.height_0 := 1 # 2;
     SpecPatch.growth_rate := fun _ => 1%Q;
     SpecPatch.fecundity := fun _ => 2%Z;
     SpecPatch.death_probability := fun _ => (1 # 2)%Q |}.

(** A metacommunity of [n] patches and [n_spp] such species,
    constructed and then given one seedling per species and patch
    through [r_add_seedlings], with the generator in state [s]. *)
Definition thicket (n n_spp : nat) (s : Z) : Demo.Universe :=
  snd (r_add_seedlings
         {| nrow := n_spp; ncol := n; cells := replicate (n_spp * n) 1%Z |}
         {| self := Metacommunity_new (rng := Tape.rng) 0%Q
                      {| n_patches := Z.of_nat n;
                         strategies := replicate n_spp shrub |};
            generator := Tape.fresh s;
            seed := Tape.fresh s;
            calls := [] |}).

End Mortal.

(** * Properties *)

Module Facts.
Import Model.

Section Generic.

Context {D Strategy rng Patch Solver : Type}.
Context `{!Sampler rng}.
Context `{!PatchOps D Strategy rng Patch}.
Context `{!SolverOps D Solver}.

Variable dzero : D.

Abbreviation World := (@World D Strategy rng Patch Solver).
Abbreviation Metacommunity := (@Metacommunity D Strategy Patch Solver).
Abbreviation M := (@M D Strategy rng Patch Solver).
Abbreviation preserves := (@preserves D Strategy rng Patch Solver).
Abbreviation reproducible := (@reproducible D Strategy rng Patch Solver).

(** ** The monad *)

Lemma bind_Ok {A B} (c : M A) (k : A -> M B) w a w' :
  c w = (Ok a, w') -> bind c k w = k a w'.
Proof. intros E. unfold bind. now rewrite E. Qed.

Lemma bind_Throw {A B} (c : M A) (k : A -> M B) w e w' :
  c w = (Throw e, w') -> bind c k w = (Throw e, w').
Proof. intros E. unfold bind. now rewrite E. Qed.

Lemma bind_Undefined {A B} (c : M A) (k : A -> M B) w u w' :
  c w = (Undefined u, w') -> bind c k w = (Undefined u, w').
Proof. intros E. unfold bind. now rewrite E. Qed.

Lemma set_patches_same (w : World) ps :
  patches (self w) = ps -> set_patches ps w = (Ok tt, w).
Proof.
  intros <-. destruct w as [[pa ps a s] g sd c]. reflexivity.
Qed.

(** ** Loops over the patches and plain folds *)

Lemma fold_ode_size (l : list Patch) (a : nat) :
  fold_left (fun ret patch => ret + p_ode_size patch) l a
  = a + sum_list (p_ode_size <$> l).
Proof.
  revert a. induction l as [|p l IH]; intros a; cbn.
  - lia.
  - rewrite IH. lia.
Qed.

Lemma fold_written {A} (f : Patch -> list A) (l : list Patch) (out : list A) :
  fold_left (fun out patch => out ++ f patch) l out
  = out ++ concat (map f l).
Proof.
  revert out. induction l as [|p l IH]; intros out; simpl.
  - now rewrite app_nil_r.
  - rewrite IH. now rewrite <- app_assoc.
Qed.

Lemma ode_values_concat (m : Metacommunity) :
  ode_values m = concat (map p_ode_values (patches m)).
Proof. unfold ode_values. now rewrite fold_written. Qed.

(** ** The size of the ODE system *)

(** C8.  In every state of a metacommunity [ode_size()] is the sum of
    [ode_size()] over its patches; in particular this holds of a freshly
    constructed metacommunity and of the state every operation
    ([step_deterministic], [step_stochastic], [add_seeds],
    [r_add_seedlings], [r_clear]) leaves behind, whatever its outcome. *)
Theorem ode_size_sum_of_patches :
  (forall m : Metacommunity, ode_size_invariant m) /\
  (forall p, ode_size_invariant (Metacommunity_new (rng := rng) dzero p)) /\
  (forall (w : World) seeds seedlings,
      ode_size_invariant (self (snd (step_deterministic dzero w))) /\
      ode_size_invariant (self (snd (step_stochastic w))) /\
      ode_size_invariant (self (snd (add_seeds seeds w))) /\
      ode_size_invariant (self (snd (r_add_seedlings seedlings w))) /\
      ode_size_invariant (self (snd (r_clear dzero w)))).
Proof.
  assert (forall m : Metacommunity, ode_size_invariant m) as Hall.
  { intros m. unfold ode_size_invariant, ode_size.
    now rewrite fold_ode_size. }
  repeat split; intros; apply Hall.
Qed.

(** ** Rejecting malformed seedling matrices *)

(** C9.  [r_add_seedlings] called with a matrix whose column count
    differs from the number of patches, or whose row count differs from
    the number of species, raises an error and leaves the world -- every
    patch, the age, the solver and the generator -- exactly as it was. *)
Theorem r_add_seedlings_rejects_wrong_shape (w : World) (seeds : IntegerMatrix) :
  ncol seeds <> size (self w) \/ nrow seeds <> n_species (self w) ->
  exists e, r_add_seedlings seeds w = (Throw e, w).
Proof.
  intros Hshape. unfold r_add_seedlings, bind, gets, lift, check_length.
  cbn.
  destruct (Nat.eqb_spec (ncol seeds) (size (self w))) as [Hc|Hc].
  - destruct (Nat.eqb_spec (nrow seeds) (n_species (self w))) as [Hr|Hr].
    + exfalso. destruct Hshape; contradiction.
    + eauto.
  - eauto.
Qed.

(** ** Reading and writing a patch in place *)

Lemma patch_at_Some (w : World) i p :
  patches (self w) !! i = Some p -> patch_at i w = (Ok p, w).
Proof. intros E. unfold patch_at, bind, gets. cbn. now rewrite E. Qed.

Lemma patch_at_None (w : World) i :
  patches (self w) !! i = None -> patch_at i w = (Undefined OutOfBounds, w).
Proof. intros E. unfold patch_at, bind, gets. cbn. now rewrite E. Qed.

Lemma patch_at_lt (w : World) i :
  i < size (self w) -> exists p, patch_at i w = (Ok p, w).
Proof.
  intros Hi. destruct (lookup_lt_is_Some_2 (patches (self w)) i Hi) as [p Hp].
  exists p. now apply patch_at_Some.
Qed.

Lemma put_patch_run (w : World) i p :
  put_patch i p w = set_patches (<[i := p]> (patches (self w))) w.
Proof. reflexivity. Qed.

Lemma put_patch_same (w : World) i p :
  patches (self w) !! i = Some p -> put_patch i p w = (Ok tt, w).
Proof.
  intros E. rewrite put_patch_run. apply set_patches_same.
  symmetry. now apply list_insert_id.
Qed.

Lemma put_patch_size (w : World) i p :
  fst (put_patch i p w) = Ok tt /\
  size (self (snd (put_patch i p w))) = size (self w).
Proof. split; [reflexivity|]. unfold size. cbn. apply length_insert. Qed.

(** ** Packing and unpacking the state vector *)

Section Protocol.

Context `{!PatchLaws D Strategy rng Patch}.

Lemma patch_ode_values_set_written (w : World) i p rest :
  patches (self w) !! i = Some p ->
  patch_ode_values_set i (p_ode_values p ++ rest) w = (Ok rest, w).
Proof.
  intros Hp. unfold patch_ode_values_set.
  rewrite (bind_Ok _ _ w p w) by now apply patch_at_Some.
  rewrite p_values_set_values.
  now rewrite (bind_Ok _ _ w tt w) by now apply put_patch_same.
Qed.

Lemma for_each_values_set_written (n k : nat) (rest : list D) (w : World) :
  k + n = size (self w) ->
  for_each (seq k n) patch_ode_values_set
           (concat (map p_ode_values (drop k (patches (self w)))) ++ rest) w
  = (Ok rest, w).
Proof.
  revert k. induction n as [|n IH]; intros k Hk; unfold size in Hk.
  - rewrite drop_ge by lia. reflexivity.
  - destruct (lookup_lt_is_Some_2 (patches (self w)) k) as [p Hp]; [lia|].
    rewrite (drop_S _ _ _ Hp). cbn [seq for_each map concat].
    rewrite <- app_assoc.
    rewrite (bind_Ok _ _ w _ w (patch_ode_values_set_written w k p _ Hp)).
    apply IH. unfold size. lia.
Qed.

(** C2.  Writing the state vector that [ode_values] produces back
    through [ode_values_set] succeeds, consumes the whole vector and
    leaves the world unchanged; [ode_values] read afterwards is the same
    vector, and so is what [derivs] leaves behind when handed it. *)
Theorem ode_values_set_round_trip (w : World) :
  ode_values_set (ode_values (self w)) w = (Ok [], w) /\
  ode_values (self (snd (ode_values_set (ode_values (self w)) w)))
  = ode_values (self w) /\
  forall time,
    derivs time (ode_values (self w)) w = (Ok (ode_rates (self w)), w).
Proof.
  assert (ode_values_set (ode_values (self w)) w = (Ok [], w)) as Hset.
  { unfold ode_values_set, for_each_patch.
    rewrite (bind_Ok _ _ w (size (self w)) w) by reflexivity.
    rewrite ode_values_concat.
    rewrite <- (app_nil_r (concat (map p_ode_values (patches (self w))))).
    now apply (for_each_values_set_written (size (self w)) 0 [] w). }
  split; [exact Hset|]. split.
  - now rewrite Hset.
  - intros time. unfold derivs. unfold bind. now rewrite Hset.
Qed.

(** The buffer of [step_deterministic] is filled exactly: the state
    vector has [ode_size()] entries. *)
Lemma ode_values_length (m : Metacommunity) :
  length (ode_values m) = ode_size m.
Proof.
  rewrite ode_values_concat. unfold ode_size. rewrite fold_ode_size.
  induction (patches m) as [|p ps IH]; cbn.
  - reflexivity.
  - rewrite length_app, p_values_length. cbn in IH. now rewrite IH.
Qed.

Lemma packed_state (w : World) :
  write_from_begin (ode_size (self w)) dzero (ode_values (self w))
  = Ok (ode_values (self w)).
Proof.
  unfold write_from_begin. rewrite ode_values_length, Nat.leb_refl.
  rewrite Nat.sub_diag. cbn. now rewrite app_nil_r.
Qed.

End Protocol.

(** ** What a computation leaves alone *)

Section Preserves.

Context {V : Type} (view : World -> V).

Lemma preserves_ret {A} (a : A) : preserves view (ret a).
Proof. intros w. reflexivity. Qed.

Lemma preserves_lift {A} (r : outcome A) : preserves view (lift r).
Proof. intros w. reflexivity. Qed.

Lemma preserves_gets {A} (f : Metacommunity -> A) : preserves view (gets f).
Proof. intros w. reflexivity. Qed.

Lemma preserves_bind {A B} (c : M A) (k : A -> M B) :
  preserves view c -> (forall a, preserves view (k a)) ->
  preserves view (bind c k).
Proof.
  intros Hc Hk w. unfold bind. specialize (Hc w).
  destruct (c w) as [[a|e|u] w']; cbn in *.
  - now rewrite Hk.
  - exact Hc.
  - exact Hc.
Qed.

Lemma preserves_for_each {A} (body : nat -> A -> M A) idxs acc :
  (forall i a, preserves view (body i a)) ->
  preserves view (for_each idxs body acc).
Proof.
  intros Hbody. revert acc.
  induction idxs as [|i idxs IH]; intros acc; cbn [for_each].
  - apply preserves_ret.
  - apply preserves_bind; [apply Hbody | exact IH].
Qed.

Lemma preserves_for_each_patch {A} (body : nat -> A -> M A) acc :
  (forall i a, preserves view (body i a)) ->
  preserves view (for_each_patch body acc).
Proof.
  intros Hbody. unfold for_each_patch.
  apply preserves_bind; [apply preserves_gets|]. intros sz.
  now apply preserves_for_each.
Qed.

Lemma preserves_patch_at i : preserves view (patch_at i).
Proof.
  apply preserves_bind; [apply preserves_gets|]. intros ps.
  destruct (ps !! i); [apply preserves_ret | apply preserves_lift].
Qed.

Lemma preserves_put_patch i p :
  (forall ps, preserves view (set_patches ps)) ->
  preserves view (put_patch i p).
Proof.
  intros Hset. apply preserves_bind; [apply preserves_gets|].
  intros ps. apply Hset.
Qed.

End Preserves.

(** ** The stochastic step and the solver *)

Lemma solver_view_set_patches ps : preserves solver_view (set_patches ps).
Proof. intros w. reflexivity. Qed.

Lemma solver_view_with_generator {A} (f : rng -> A * rng) :
  preserves solver_view (with_generator f).
Proof. intros w. unfold with_generator. now destruct (f (generator w)). Qed.

Lemma solver_view_put_patch i p : preserves solver_view (put_patch i p).
Proof. apply preserves_put_patch, solver_view_set_patches. Qed.

Lemma solver_view_deaths : preserves solver_view deaths.
Proof.
  apply preserves_for_each_patch. intros i a. unfold patch_deaths.
  apply preserves_bind; [apply preserves_patch_at|]. intros p.
  apply preserves_bind; [apply solver_view_with_generator|]. intros p'.
  apply solver_view_put_patch.
Qed.

Lemma solver_view_births : preserves solver_view births.
Proof.
  apply preserves_bind; [apply preserves_gets|]. intros sz.
  apply preserves_for_each_patch. intros i n.
  apply preserves_bind; [|intros b; apply preserves_lift].
  unfold patch_births.
  apply preserves_bind; [apply preserves_patch_at|]. intros p.
  apply preserves_bind; [apply solver_view_with_generator|]. intros [b p'].
  apply preserves_bind; [apply solver_view_put_patch|]. intros _.
  apply preserves_ret.
Qed.

Lemma solver_view_add_seeds_draw pr i locals :
  preserves solver_view (add_seeds_draw pr i locals).
Proof.
  destruct locals as [[j seeds] seeds_i]. unfold add_seeds_draw.
  apply preserves_bind; [apply preserves_lift|]. intros n.
  apply preserves_bind; [apply solver_view_with_generator|]. intros d.
  apply preserves_bind; [apply preserves_lift|]. intros k.
  apply preserves_bind; [apply preserves_lift|]. intros r.
  apply preserves_ret.
Qed.

Lemma solver_view_patch_add_seeds i seeds_i :
  preserves solver_view (patch_add_seeds i seeds_i).
Proof.
  unfold patch_add_seeds.
  apply preserves_bind; [apply preserves_patch_at|]. intros p.
  apply preserves_bind; [apply solver_view_with_generator|]. intros p'.
  apply solver_view_put_patch.
Qed.

Lemma solver_view_add_seeds seeds : preserves solver_view (add_seeds seeds).
Proof.
  apply preserves_bind; [apply preserves_gets|]. intros sz.
  apply preserves_bind.
  - apply preserves_for_each_patch. intros i [[j sds] allocation].
    unfold add_seeds_patch. apply preserves_bind.
    + apply preserves_for_each. intros i' a.
      apply solver_view_add_seeds_draw.
    + intros [[j' sds'] seeds_i'].
      apply preserves_bind; [apply solver_view_patch_add_seeds|].
      intros _. apply preserves_ret.
  - intros [[j sds] allocation]. apply preserves_ret.
Qed.

Lemma solver_view_step_stochastic : preserves solver_view step_stochastic.
Proof.
  apply preserves_bind; [apply solver_view_deaths|]. intros _.
  apply preserves_bind; [apply solver_view_births|]. intros seeds.
  apply preserves_bind; [apply solver_view_add_seeds|]. intros _.
  apply preserves_ret.
Qed.

(** The dialogue of the solver with its target reaches the patches only:
    it makes no call on the solver and leaves the solver object alone. *)
Lemma solver_view_ode_values_set it : preserves solver_view (ode_values_set it).
Proof.
  apply preserves_for_each_patch. intros i a. unfold patch_ode_values_set.
  apply preserves_bind; [apply preserves_patch_at|]. intros p.
  destruct (p_ode_values_set p a) as [[p' it']|]; [|apply preserves_lift].
  apply preserves_bind; [apply solver_view_put_patch|]. intros _.
  apply preserves_ret.
Qed.

Lemma solver_view_derivs time y : preserves solver_view (derivs time y).
Proof.
  apply preserves_bind; [apply solver_view_ode_values_set|].
  intros _. apply preserves_gets.
Qed.

Lemma solver_view_run {A} (c : prog D A) : preserves solver_view (run c).
Proof.
  induction c as [a|e|time y k IH|y k IH|k IH|k IH|k IH]; cbn [run].
  - apply preserves_ret.
  - apply preserves_lift.
  - apply preserves_bind; [apply solver_view_derivs | exact IH].
  - apply preserves_bind; [apply solver_view_ode_values_set|].
    intros _. apply IH.
  - apply preserves_bind; [apply preserves_gets | exact IH].
  - apply preserves_bind; [apply preserves_gets | exact IH].
  - apply preserves_bind; [apply preserves_gets | exact IH].
Qed.

(** ** Counting the calls on the solver *)

Lemma logs_at_bind {A B} (c : M A) (k : A -> M B) (w : World) L1 L2 :
  logs_at w L1 c ->
  (forall a, fst (c w) = Ok a -> logs_at (snd (c w)) L2 (k a)) ->
  logs_at w (L1 ++ L2) (bind c k).
Proof.
  intros (l1 & Hl1 & Hp1 & Hok1) Hk. unfold logs_at, bind.
  destruct (c w) as [[a|e|u] w'] eqn:E; cbn in *.
  - destruct (Hk a eq_refl) as (l2 & Hl2 & Hp2 & Hok2).
    exists (L1 ++ l2). rewrite Hl2, Hl1, (Hok1 eq_refl), app_assoc.
    split; [reflexivity|]. split.
    + now apply prefix_app.
    + intros Hok. now rewrite (Hok2 Hok).
  - exists l1. split; [exact Hl1|]. split; [|discriminate].
    now apply prefix_app_r.
  - exists l1. split; [exact Hl1|]. split; [|discriminate].
    now apply prefix_app_r.
Qed.

Lemma logs_at_silent {A} (c : M A) (w : World) :
  preserves solver_view c -> logs_at w [] c.
Proof.
  intros Hc. exists []. specialize (Hc w). unfold solver_view in Hc.
  injection Hc as Hcalls _. rewrite Hcalls, app_nil_r. auto.
Qed.

Lemma logs_at_log_call c (w : World) : logs_at w [c] (log_call c).
Proof. exists [c]. cbn. auto. Qed.

Lemma logs_at_set_solver s (w : World) : logs_at w [] (set_solver s).
Proof. exists []. cbn. rewrite app_nil_r. auto. Qed.

Lemma logs_at_set_age t (w : World) : logs_at w [] (set_age t).
Proof. exists []. cbn. rewrite app_nil_r. auto. Qed.

Lemma logs_at_pure {A} (c : M A) (w : World) :
  snd (c w) = w -> logs_at w [] c.
Proof. intros E. exists []. rewrite E, app_nil_r. auto. Qed.

Lemma logs_at_solver_step (w : World) : logs_at w [Step] solver_step.
Proof.
  unfold solver_step.
  apply (logs_at_bind _ _ _ [Step] []); [apply logs_at_log_call|].
  intros _ _.
  apply (logs_at_bind _ _ _ [] []); [now apply logs_at_pure|]. intros s _.
  apply (logs_at_bind _ _ _ [] []).
  - apply logs_at_silent, solver_view_run.
  - intros s' _. apply logs_at_set_solver.
Qed.

Lemma logs_at_solver_get_time (w : World) : logs_at w [GetTime] solver_get_time.
Proof.
  unfold solver_get_time.
  apply (logs_at_bind _ _ _ [GetTime] []); [apply logs_at_log_call|].
  intros _ _. now apply logs_at_pure.
Qed.

Lemma bind_assoc {A B C} (c : M A) (k : A -> M B) (k' : B -> M C) w :
  bind (bind c k) k' w = bind c (fun a => bind (k a) k') w.
Proof. unfold bind. now destruct (c w) as [[a|e|u] w1]. Qed.

(** The calls of [step_deterministic]: nothing when the state cannot be
    packed; otherwise [set_state] with the packed state and the age,
    then [step] and [get_time] as far as the step gets. *)
Lemma calls_step_deterministic (w : World) :
  match write_from_begin (ode_size (self w)) dzero (ode_values (self w)) with
  | Ok y =>
      exists l,
        calls (snd (step_deterministic dzero w))
        = calls w ++ SetState y (age (self w)) :: l /\
        l `prefix_of` [Step; GetTime]
  | _ => calls (snd (step_deterministic dzero w)) = calls w
  end.
Proof.
  unfold step_deterministic.
  rewrite (bind_Ok _ _ w (ode_size (self w)) w) by reflexivity.
  rewrite (bind_Ok _ _ w (ode_values (self w)) w) by reflexivity.
  destruct (write_from_begin (ode_size (self w)) dzero (ode_values (self w)))
    as [y|e|u] eqn:Ey.
  - rewrite (bind_Ok _ _ w y w) by reflexivity.
    rewrite (bind_Ok _ _ w (age (self w)) w) by reflexivity.
    unfold solver_set_state. rewrite !bind_assoc.
    set (w1 := snd (log_call (SetState y (age (self w))) w)).
    rewrite (bind_Ok _ _ w tt w1) by reflexivity.
    match goal with
    | |- context [snd (?c w1)] =>
        assert (logs_at w1 ([] ++ [Step] ++ [GetTime] ++ []) c)
          as (l & Hl & Hp & _)
    end.
    { apply logs_at_bind.
      { apply (logs_at_bind _ _ _ [] []); [now apply logs_at_pure|].
        intros n _.
        apply (logs_at_bind _ _ _ [] []); [now apply logs_at_pure|].
        intros _ _.
        apply (logs_at_bind _ _ _ [] []); [now apply logs_at_pure|].
        intros s _. apply logs_at_set_solver. }
      intros _ _.
      apply logs_at_bind; [apply logs_at_solver_step|]. intros _ _.
      apply logs_at_bind; [apply logs_at_solver_get_time|]. intros t _.
      apply logs_at_set_age. }
    exists l. split; [|exact Hp].
    rewrite Hl. unfold w1. cbn. now rewrite <- app_assoc.
  - rewrite (bind_Throw _ _ w e w) by reflexivity.
    reflexivity.
  - rewrite (bind_Undefined _ _ w u w) by reflexivity.
    reflexivity.
Qed.

Lemma patch_r_clear_ok (w : World) i :
  i < size (self w) ->
  fst (patch_r_clear i w) = Ok tt /\
  size (self (snd (patch_r_clear i w))) = size (self w).
Proof.
  intros Hi. destruct (patch_at_lt w i Hi) as [p Hp].
  unfold patch_r_clear. rewrite (bind_Ok _ _ w p w Hp).
  apply put_patch_size.
Qed.

Lemma for_each_r_clear_ok (n k : nat) (w : World) :
  k + n <= size (self w) ->
  fst (for_each (seq k n) (fun patch (_ : unit) => patch_r_clear patch) tt w)
  = Ok tt.
Proof.
  revert k w. induction n as [|n IH]; intros k w Hk.
  - reflexivity.
  - cbn [seq for_each].
    destruct (patch_r_clear_ok w k) as [Hok Hsize]; [lia|].
    destruct (patch_r_clear k w) as [r w1] eqn:E. cbn in Hok, Hsize.
    subst r. rewrite (bind_Ok _ _ w tt w1 E).
    apply IH. lia.
Qed.

Lemma r_clear_effect (w : World) :
  fst (r_clear dzero w) = Ok tt /\
  calls (snd (r_clear dzero w)) = calls w ++ [Reset] /\
  ode_solver (self (snd (r_clear dzero w))) = s_reset (ode_solver (self w)).
Proof.
  set (loop := for_each_patch (fun patch (_ : unit) => patch_r_clear patch) tt
               : M unit).
  set (w1 := snd (set_age dzero w)).
  assert (solver_view (snd (loop w1)) = solver_view w) as Hv.
  { unfold loop. rewrite (preserves_for_each_patch solver_view).
    - reflexivity.
    - intros i a. unfold patch_r_clear.
      apply preserves_bind; [apply preserves_patch_at|]. intros p.
      apply solver_view_put_patch. }
  assert (fst (loop w1) = Ok tt) as Hok.
  { unfold loop, for_each_patch.
    rewrite (bind_Ok _ _ w1 (size (self w1)) w1) by reflexivity.
    now apply for_each_r_clear_ok. }
  assert (r_clear dzero w = solver_reset (snd (loop w1))) as E.
  { unfold r_clear. fold loop.
    rewrite (bind_Ok _ _ w tt w1) by reflexivity.
    destruct (loop w1) as [r w2] eqn:E2.
    cbn in Hok. subst r. now rewrite (bind_Ok _ _ w1 tt w2) by exact E2. }
  rewrite E. clearbody w1 loop.
  unfold solver_view in Hv. injection Hv as Hc Hs.
  destruct (loop w1) as [r w2].
  cbn in *. rewrite Hc, Hs. auto.
Qed.

Lemma no_reset_in_prefix (l : list (solver_call D)) :
  l `prefix_of` [Step; GetTime] -> filter is_reset l = [].
Proof.
  intros [k Hk].
  destruct l as [|c1 [|c2 [|c3 l]]]; cbn in Hk;
    try discriminate; simplify_eq; reflexivity.
Qed.

(** C6, as the code has it.  [reset()] is called on the solver when
    [r_clear] has altered the state, and not after [step_stochastic]:
    [step_stochastic] makes no call on the solver and leaves the solver
    object as it was; [step_deterministic] makes no call when the state
    cannot be packed, and otherwise calls [set_state(y, age)] with the
    freshly packed state, then [step()] and [get_time()] as far as the
    step gets, with no [reset()] among them; [r_clear] succeeds and its
    one call on the solver is [reset()]. *)
Theorem reset_is_called_by_r_clear_only (w : World) :
  solver_view (snd (step_stochastic w)) = solver_view w /\
  match write_from_begin (ode_size (self w)) dzero (ode_values (self w)) with
  | Ok y =>
      exists l,
        calls (snd (step_deterministic dzero w))
        = calls w ++ SetState y (age (self w)) :: l /\
        l `prefix_of` [Step; GetTime] /\
        filter is_reset l = []
  | _ => calls (snd (step_deterministic dzero w)) = calls w
  end /\
  (fst (r_clear dzero w) = Ok tt /\
   calls (snd (r_clear dzero w)) = calls w ++ [Reset] /\
   ode_solver (self (snd (r_clear dzero w))) = s_reset (ode_solver (self w))).
Proof.
  split; [apply solver_view_step_stochastic|]. split.
  - pose proof (calls_step_deterministic w) as H.
    destruct (write_from_begin (ode_size (self w)) dzero
                (ode_values (self w))) as [y|e|u]; try exact H.
    destruct H as (l & Hl & Hp). exists l.
    split; [exact Hl|]. split; [exact Hp|].
    now apply no_reset_in_prefix.
  - apply r_clear_effect.
Qed.

(** ** The frame of the deterministic step *)

Section Frame.

Context `{!PatchLaws D Strategy rng Patch}.

Lemma frame_put_patch_same_view (w : World) i p p' :
  patches (self w) !! i = Some p -> patch_view p' = patch_view p ->
  frame_view (snd (put_patch i p' w)) = frame_view w.
Proof.
  intros Hp Hview. unfold frame_view. cbn. f_equal.
  rewrite list_fmap_insert, Hview.
  apply list_insert_id. now rewrite list_lookup_fmap, Hp.
Qed.

Lemma frame_patch_ode_values_set i it :
  preserves frame_view (patch_ode_values_set i it).
Proof.
  intros w. unfold patch_ode_values_set.
  destruct (patches (self w) !! i) as [p|] eqn:Hp.
  - rewrite (bind_Ok _ _ w p w) by now apply patch_at_Some.
    destruct (p_ode_values_set p it) as [[p' it']|] eqn:Ep; [|reflexivity].
    destruct (p_values_set_frame p it p' it' Ep) as [Hsize Hcount].
    rewrite (bind_Ok _ _ w tt (snd (put_patch i p' w))) by reflexivity.
    cbn [ret snd]. apply (frame_put_patch_same_view w i p p' Hp).
    unfold patch_view. now rewrite Hsize, Hcount.
  - rewrite (bind_Undefined _ _ w OutOfBounds w)
      by now apply patch_at_None.
    reflexivity.
Qed.

Lemma frame_ode_values_set it : preserves frame_view (ode_values_set it).
Proof.
  apply preserves_for_each_patch. intros i a.
  apply frame_patch_ode_values_set.
Qed.

Lemma frame_derivs time y : preserves frame_view (derivs time y).
Proof.
  apply preserves_bind; [apply frame_ode_values_set|].
  intros _. apply preserves_gets.
Qed.

Lemma frame_run {A} (c : prog D A) : preserves frame_view (run c).
Proof.
  induction c as [a|e|time y k IH|y k IH|k IH|k IH|k IH]; cbn [run].
  - apply preserves_ret.
  - apply preserves_lift.
  - apply preserves_bind; [apply frame_derivs | exact IH].
  - apply preserves_bind; [apply frame_ode_values_set|].
    intros _. apply IH.
  - apply preserves_bind; [apply preserves_gets | exact IH].
  - apply preserves_bind; [apply preserves_gets | exact IH].
  - apply preserves_bind; [apply preserves_gets | exact IH].
Qed.

Lemma frame_log_call c : preserves frame_view (log_call c).
Proof. intros w. reflexivity. Qed.

Lemma frame_set_solver s : preserves frame_view (set_solver s).
Proof. intros w. reflexivity. Qed.

Lemma frame_set_age t : preserves frame_view (set_age t).
Proof. intros w. reflexivity. Qed.

Lemma frame_step_deterministic :
  preserves frame_view (step_deterministic dzero).
Proof.
  unfold step_deterministic.
  apply preserves_bind; [apply preserves_gets|]. intros n.
  apply preserves_bind; [apply preserves_gets|]. intros values.
  apply preserves_bind; [apply preserves_lift|]. intros y.
  apply preserves_bind; [apply preserves_gets|]. intros time.
  apply preserves_bind.
  { unfold solver_set_state.
    apply preserves_bind; [apply frame_log_call|]. intros _.
    apply preserves_bind; [apply preserves_gets|]. intros n'.
    apply preserves_bind; [apply preserves_lift|]. intros _.
    apply preserves_bind; [apply preserves_gets|]. intros s.
    apply frame_set_solver. }
  intros _. apply preserves_bind.
  { unfold solver_step.
    apply preserves_bind; [apply frame_log_call|]. intros _.
    apply preserves_bind; [apply preserves_gets|]. intros s.
    apply preserves_bind; [apply frame_run|]. intros s'.
    apply frame_set_solver. }
  intros _. apply preserves_bind.
  { unfold solver_get_time.
    apply preserves_bind; [apply frame_log_call|]. intros _.
    apply preserves_gets. }
  intros time'. apply frame_set_age.
Qed.

Lemma frame_view_size (w w' : World) :
  frame_view w' = frame_view w -> size (self w') = size (self w).
Proof.
  unfold frame_view, size. intros E. injection E as _ _ _ E.
  apply (f_equal length) in E. now rewrite !length_map in E.
Qed.

Lemma frame_view_counts (w w' : World) :
  frame_view w' = frame_view w ->
  map p_r_n_individuals (patches (self w'))
  = map p_r_n_individuals (patches (self w)).
Proof.
  unfold frame_view. intros E. injection E as _ _ _ E.
  apply (f_equal (map snd)) in E.
  now rewrite !map_map in E.
Qed.

Lemma frame_view_sizes (w w' : World) :
  frame_view w' = frame_view w ->
  map p_ode_size (patches (self w')) = map p_ode_size (patches (self w)).
Proof.
  unfold frame_view. intros E. injection E as _ _ _ E.
  apply (f_equal (map fst)) in E.
  now rewrite !map_map in E.
Qed.

(** C10.  Whenever [step_deterministic] has a defined outcome (it
    returns, or the solver raises an error), it leaves the parameters
    and the generator as they were, and with them the number of patches,
    the number of individuals of every species in every patch (the
    matrix [r_n_individuals]) and [ode_size()]: no individual is created
    or removed. *)
Theorem step_deterministic_frame (w : World) :
  is_defined (fst (step_deterministic dzero w)) = true ->
  let w' := snd (step_deterministic dzero w) in
  parameters (self w') = parameters (self w) /\
  generator w' = generator w /\
  size (self w') = size (self w) /\
  map p_r_n_individuals (patches (self w'))
  = map p_r_n_individuals (patches (self w)) /\
  r_n_individuals (self w') = r_n_individuals (self w) /\
  ode_size (self w') = ode_size (self w).
Proof.
  intros _ w'. pose proof (frame_step_deterministic w) as E.
  fold w' in E.
  pose proof (frame_view_size _ _ E) as Hsize.
  pose proof (frame_view_counts _ _ E) as Hcounts.
  pose proof (frame_view_sizes _ _ E) as Hsizes.
  unfold frame_view in E. injection E as Hpar Hgen _ _.
  repeat split; try assumption.
  - unfold r_n_individuals, n_species.
    rewrite !fold_written, Hcounts, Hsize, Hpar. reflexivity.
  - unfold ode_size. rewrite !fold_ode_size.
    change (p_ode_size <$> patches (self w'))
      with (map p_ode_size (patches (self w'))).
    now rewrite Hsizes.
Qed.

End Frame.

(** ** Reproducibility *)

Lemma reproducible_ret {A} (a : A) : reproducible (ret a).
Proof. intros w1 w2 Hw. now split. Qed.

Lemma reproducible_lift {A} (r : outcome A) : reproducible (lift r).
Proof. intros w1 w2 Hw. now split. Qed.

Lemma reproducible_gets {A} (f : Metacommunity -> A) : reproducible (gets f).
Proof.
  intros w1 w2 [Hs Hg]. unfold gets. cbn. rewrite Hs. now split.
Qed.

Lemma reproducible_bind {A B} (c : M A) (k : A -> M B) :
  reproducible c -> (forall a, reproducible (k a)) ->
  reproducible (bind c k).
Proof.
  intros Hc Hk w1 w2 Hw. unfold bind.
  destruct (Hc w1 w2 Hw) as [Hr Hw'].
  destruct (c w1) as [r1 w1'], (c w2) as [r2 w2']. cbn in Hr, Hw'.
  subst r2. destruct r1 as [a|e|u].
  - now apply Hk.
  - now split.
  - now split.
Qed.

Lemma reproducible_for_each {A} (body : nat -> A -> M A) idxs acc :
  (forall i a, reproducible (body i a)) ->
  reproducible (for_each idxs body acc).
Proof.
  intros Hbody. revert acc.
  induction idxs as [|i idxs IH]; intros acc; cbn [for_each].
  - apply reproducible_ret.
  - apply reproducible_bind; [apply Hbody | exact IH].
Qed.

Lemma reproducible_set_patches ps : reproducible (set_patches ps).
Proof.
  intros w1 w2 [Hs Hg]. unfold same_run. cbn. rewrite Hs, Hg. now split.
Qed.

Lemma reproducible_with_generator {A} (f : rng -> A * rng) :
  reproducible (with_generator f).
Proof.
  intros w1 w2 [Hs Hg]. unfold same_run, with_generator. rewrite Hg.
  destruct (f (generator w2)) as [a g]. cbn. rewrite Hs. now split.
Qed.

Lemma reproducible_for_each_patch {A} (body : nat -> A -> M A) acc :
  (forall i a, reproducible (body i a)) ->
  reproducible (for_each_patch body acc).
Proof.
  intros Hbody. unfold for_each_patch.
  apply reproducible_bind; [apply reproducible_gets|]. intros sz.
  now apply reproducible_for_each.
Qed.

Lemma reproducible_patch_at i : reproducible (patch_at i).
Proof.
  apply reproducible_bind; [apply reproducible_gets|]. intros ps.
  destruct (ps !! i); [apply reproducible_ret | apply reproducible_lift].
Qed.

Lemma reproducible_put_patch i p : reproducible (put_patch i p).
Proof.
  apply reproducible_bind; [apply reproducible_gets|]. intros ps.
  apply reproducible_set_patches.
Qed.

Lemma reproducible_deaths : reproducible deaths.
Proof.
  apply reproducible_for_each_patch. intros i a. unfold patch_deaths.
  apply reproducible_bind; [apply reproducible_patch_at|]. intros p.
  apply reproducible_bind; [apply reproducible_with_generator|]. intros p'.
  apply reproducible_put_patch.
Qed.

Lemma reproducible_births : reproducible births.
Proof.
  apply reproducible_bind; [apply reproducible_gets|]. intros sz.
  apply reproducible_for_each_patch. intros i n.
  apply reproducible_bind; [|intros b; apply reproducible_lift].
  unfold patch_births.
  apply reproducible_bind; [apply reproducible_patch_at|]. intros p.
  apply reproducible_bind; [apply reproducible_with_generator|].
  intros [b p'].
  apply reproducible_bind; [apply reproducible_put_patch|]. intros _.
  apply reproducible_ret.
Qed.

Lemma reproducible_add_seeds_draw pr i locals :
  reproducible (add_seeds_draw pr i locals).
Proof.
  destruct locals as [[j seeds] seeds_i]. unfold add_seeds_draw.
  apply reproducible_bind; [apply reproducible_lift|]. intros n.
  apply reproducible_bind; [apply reproducible_with_generator|]. intros d.
  apply reproducible_bind; [apply reproducible_lift|]. intros k.
  apply reproducible_bind; [apply reproducible_lift|]. intros r.
  apply reproducible_ret.
Qed.

Lemma reproducible_patch_add_seeds i seeds_i :
  reproducible (patch_add_seeds i seeds_i).
Proof.
  unfold patch_add_seeds.
  apply reproducible_bind; [apply reproducible_patch_at|]. intros p.
  apply reproducible_bind; [apply reproducible_with_generator|]. intros p'.
  apply reproducible_put_patch.
Qed.

Lemma reproducible_add_seeds seeds : reproducible (add_seeds seeds).
Proof.
  apply reproducible_bind; [apply reproducible_gets|]. intros sz.
  apply reproducible_bind.
  - apply reproducible_for_each_patch. intros i [[j sds] allocation].
    unfold add_seeds_patch. apply reproducible_bind.
    + apply reproducible_for_each. intros i' a.
      apply reproducible_add_seeds_draw.
    + intros [[j' sds'] seeds_i'].
      apply reproducible_bind; [apply reproducible_patch_add_seeds|].
      intros _. apply reproducible_ret.
  - intros [[j sds] allocation]. apply reproducible_ret.
Qed.

Lemma reproducible_step_stochastic : reproducible step_stochastic.
Proof.
  apply reproducible_bind; [apply reproducible_deaths|]. intros _.
  apply reproducible_bind; [apply reproducible_births|]. intros seeds.
  apply reproducible_bind; [apply reproducible_add_seeds|]. intros _.
  apply reproducible_ret.
Qed.

(** What the scope does to a reproducible body: the outcome and the
    object depend on the host's seed only, and the seed handed back is
    the state the generator was left in. *)
Lemma RNGScope_reproducible {A} (body : M A) (w1 w2 : World) :
  reproducible body ->
  self w1 = self w2 -> seed w1 = seed w2 ->
  fst (RNGScope body w1) = fst (RNGScope body w2) /\
  self (snd (RNGScope body w1)) = self (snd (RNGScope body w2)) /\
  generator (snd (RNGScope body w1)) = generator (snd (RNGScope body w2)) /\
  (is_defined (fst (RNGScope body w1)) = true ->
   seed (snd (RNGScope body w1)) = seed (snd (RNGScope body w2))).
Proof.
  intros Hbody Hs Hseed. unfold RNGScope.
  destruct (Hbody (GetRNGstate w1) (GetRNGstate w2)) as [Hr [Hs' Hg']].
  { split; cbn; assumption. }
  destruct (body (GetRNGstate w1)) as [r1 w1'],
           (body (GetRNGstate w2)) as [r2 w2'].
  cbn in Hr, Hs', Hg'. subst r2.
  destruct r1 as [a|e|u]; cbn; auto.
  repeat split; auto. discriminate.
Qed.

(** What [step_stochastic] reads.  In the embedding, two runs of
    [step_stochastic] that start from the same metacommunity and the
    same generator state have the same outcome and end in the same
    metacommunity and the same generator state, whatever else differs
    between the two worlds; the same holds of [r_step_stochastic] for
    two runs that start from the same host seed.  This says what the
    outcome depends on; whether there is a result to compare is another
    matter, settled for two or more patches under [StochasticRuns]. *)
Theorem step_stochastic_reproducible (w1 w2 : World) :
  self w1 = self w2 ->
  (generator w1 = generator w2 ->
   fst (step_stochastic w1) = fst (step_stochastic w2) /\
   self (snd (step_stochastic w1)) = self (snd (step_stochastic w2)) /\
   r_n_individuals (self (snd (step_stochastic w1)))
   = r_n_individuals (self (snd (step_stochastic w2))) /\
   generator (snd (step_stochastic w1))
   = generator (snd (step_stochastic w2))) /\
  (seed w1 = seed w2 ->
   fst (r_step_stochastic w1) = fst (r_step_stochastic w2) /\
   self (snd (r_step_stochastic w1)) = self (snd (r_step_stochastic w2)) /\
   r_n_individuals (self (snd (r_step_stochastic w1)))
   = r_n_individuals (self (snd (r_step_stochastic w2))) /\
   generator (snd (r_step_stochastic w1))
   = generator (snd (r_step_stochastic w2)) /\
   (is_defined (fst (r_step_stochastic w1)) = true ->
    seed (snd (r_step_stochastic w1)) = seed (snd (r_step_stochastic w2)))).
Proof.
  intros Hs. split.
  - intros Hg.
    destruct (reproducible_step_stochastic w1 w2 (conj Hs Hg))
      as [Hr [Hs' Hg']].
    repeat split; try assumption. now rewrite Hs'.
  - intros Hseed. unfold r_step_stochastic.
    destruct (RNGScope_reproducible step_stochastic w1 w2
                reproducible_step_stochastic Hs Hseed)
      as (Hr & Hs' & Hg' & Hsd).
    repeat split; try assumption. now rewrite Hs'.
Qed.

(** ** The allocation loop under any generator that obeys R's contract *)

Section Allocation.

Context `{!SamplerLaws rng}.

Lemma int_checked_count (n : Z) : int_count n -> int_checked n = Ok n.
Proof.
  unfold int_count, int_checked, INT_MIN, INT_MAX. intros Hn.
  destruct (Z.leb_spec (- 2 ^ 31) n); [|lia].
  destruct (Z.leb_spec n (2 ^ 31 - 1)); [reflexivity|lia].
Qed.

Lemma with_generator_run {A} (f : rng -> A * rng) (w : World) :
  with_generator f w
  = (Ok (fst (f (generator w))),
     {| self := self w; generator := snd (f (generator w));
        seed := seed w; calls := calls w |}).
Proof. unfold with_generator. now destruct (f (generator w)). Qed.

Lemma valid_prob_recip (n : nat) :
  n <> 0 -> exists q, recip (Z.of_nat n) = Fin q /\ valid_prob q = true.
Proof.
  intros Hn. unfold recip.
  destruct (Z.eqb_spec (Z.of_nat n) 0) as [E|_]; [lia|].
  exists (1 # Z.to_pos (Z.of_nat n))%Q. split; [reflexivity|].
  unfold valid_prob. apply andb_true_iff. split; apply Qle_bool_iff.
  - unfold Qle. cbn. lia.
  - unfold Qle. cbn. lia.
Qed.

(** One draw with a proper probability succeeds and takes between
    nothing and all of what remains for the species. *)
Lemma add_seeds_draw_ok q i j seeds seeds_i (w : World) n :
  valid_prob q = true -> seeds !! i = Some n -> int_count n ->
  exists k w',
    add_seeds_draw (Fin q) i (j, seeds, seeds_i) w
    = (Ok (size_t_decr j, <[i := (n - k)%Z]> seeds, <[i := k]> seeds_i), w')
    /\ (0 <= k <= n)%Z.
Proof.
  intros Hq Hi Hn. unfold add_seeds_draw, vector_at. rewrite Hi.
  destruct (rbinom_range n q (generator w)) as (k & Hk & Hrange);
    [apply Hn | exact Hq |].
  exists k. eexists. split; [|exact Hrange].
  rewrite (bind_Ok _ _ w n w) by reflexivity.
  erewrite bind_Ok by apply with_generator_run.
  rewrite Hk. cbn [int_of_draw].
  erewrite bind_Ok.
  2:{ unfold lift. rewrite int_checked_count; [reflexivity|].
      unfold int_count in *. lia. }
  erewrite bind_Ok.
  2:{ unfold lift. rewrite int_checked_count; [reflexivity|].
      unfold int_count in *. lia. }
  reflexivity.
Qed.

(** The inner loop of the first patch runs to its end: the counts stay
    counts, the vector keeps its length and [j] has been decremented
    once per index. *)
Lemma inner_loop_ok q idxs j seeds seeds_i (w : World) :
  valid_prob q = true ->
  Forall int_count seeds ->
  Forall (fun i => i < length seeds) idxs ->
  exists seeds' seeds_i' w',
    for_each idxs (add_seeds_draw (Fin q)) (j, seeds, seeds_i) w
    = (Ok (Nat.iter (length idxs) size_t_decr j, seeds', seeds_i'), w')
    /\ Forall int_count seeds' /\ length seeds' = length seeds.
Proof.
  intros Hq. revert j seeds seeds_i w.
  induction idxs as [|i idxs IH]; intros j seeds seeds_i w Hseeds Hidx.
  - exists seeds, seeds_i, w. auto.
  - apply Forall_cons in Hidx as [Hi Hidx].
    destruct (lookup_lt_is_Some_2 seeds i Hi) as [n Hn].
    assert (int_count n) as Hcount
      by (eapply Forall_lookup_1; eassumption).
    destruct (add_seeds_draw_ok q i j seeds seeds_i w n Hq Hn Hcount)
      as (k & w1 & Hdraw & Hk).
    destruct (IH (size_t_decr j) (<[i := (n - k)%Z]> seeds)
                 (<[i := k]> seeds_i) w1)
      as (seeds' & seeds_i' & w' & Hrest & Hall & Hlen).
    + apply Forall_insert; [exact Hseeds|]. unfold int_count in *. lia.
    + now rewrite length_insert.
    + exists seeds', seeds_i', w'. cbn [for_each].
      rewrite (bind_Ok _ _ _ _ _ Hdraw), Hrest.
      cbn [length]. rewrite Nat.iter_succ_r.
      rewrite length_insert in Hlen. auto.
Qed.

Lemma size_t_decr_iter (n : nat) (j : Z) :
  n <> 0 ->
  Nat.iter n size_t_decr j = ((j - Z.of_nat n) mod SIZE_MODULUS)%Z.
Proof.
  intros Hn. destruct n as [|n]; [contradiction|]. clear Hn.
  induction n as [|n IH].
  - reflexivity.
  - rewrite Nat.iter_succ, IH. unfold size_t_decr, SIZE_MODULUS.
    rewrite Zminus_mod_idemp_l. f_equal. lia.
Qed.

(** After the first patch [j] is zero, whatever the number of patches:
    the inner loop has decremented it once per index. *)
Lemma j_after_first_patch (sz : nat) :
  sz <> 0 -> Nat.iter (length (seq 0 sz)) size_t_decr (Z.of_nat sz) = 0%Z.
Proof.
  intros Hsz. rewrite length_seq, size_t_decr_iter by exact Hsz.
  now rewrite Z.sub_diag.
Qed.

(** A draw with [p = 1.0/0] ends in the conversion of NaN to [int]. *)
Lemma add_seeds_draw_inf i j seeds seeds_i (w : World) n :
  seeds !! i = Some n ->
  fst (add_seeds_draw Inf i (j, seeds, seeds_i) w) = Undefined NaNToInt.
Proof.
  intros Hi. unfold add_seeds_draw, vector_at. rewrite Hi.
  rewrite (bind_Ok _ _ w n w) by reflexivity.
  erewrite bind_Ok by apply with_generator_run.
  rewrite rbinom_inf. reflexivity.
Qed.

Lemma fst_bind_Undefined {A B} (c : M A) (k : A -> M B) (w : World) u :
  fst (c w) = Undefined u -> fst (bind c k w) = Undefined u.
Proof.
  intros E. unfold bind. destruct (c w) as [r w']. cbn in E. now subst r.
Qed.

Lemma self_with_generator {A} (f : rng -> A * rng) :
  preserves self (with_generator f).
Proof. intros w. unfold with_generator. now destruct (f (generator w)). Qed.

(** A draw reads and advances the generator and leaves the object
    alone. *)
Lemma self_add_seeds_draw pr i locals :
  preserves self (add_seeds_draw pr i locals).
Proof.
  destruct locals as [[j seeds] seeds_i]. unfold add_seeds_draw.
  apply preserves_bind; [apply preserves_lift|]. intros n.
  apply preserves_bind; [apply self_with_generator|]. intros d.
  apply preserves_bind; [apply preserves_lift|]. intros k.
  apply preserves_bind; [apply preserves_lift|]. intros r.
  apply preserves_ret.
Qed.

Lemma patch_add_seeds_ok (w : World) i seeds_i :
  i < size (self w) ->
  exists w', patch_add_seeds i seeds_i w = (Ok tt, w') /\
             size (self w') = size (self w).
Proof.
  intros Hi. destruct (patch_at_lt w i Hi) as [p Hp].
  unfold patch_add_seeds. rewrite (bind_Ok _ _ w p w Hp).
  erewrite bind_Ok by apply with_generator_run.
  eexists. split; [reflexivity|]. unfold size. cbn. apply length_insert.
Qed.

(** With two or more patches, every call of [add_seeds] with a count
    per patch index reaches that conversion in the second patch. *)
Theorem add_seeds_second_patch_undefined (w : World) (seeds : list Z) :
  2 <= size (self w) ->
  size (self w) <= length seeds ->
  Forall int_count seeds ->
  fst (add_seeds seeds w) = Undefined NaNToInt.
Proof.
  intros Hsz Hlen Hseeds. unfold add_seeds.
  rewrite (bind_Ok _ _ w (size (self w)) w) by reflexivity.
  apply fst_bind_Undefined. unfold for_each_patch.
  rewrite (bind_Ok _ _ w (size (self w)) w) by reflexivity.
  set (sz := size (self w)) in *.
  assert (sz <> 0) as Hsz0 by lia.
  assert (seq 0 sz = 0 :: 1 :: seq 2 (sz - 2)) as Hseq.
  { destruct sz as [|[|sz']]; [lia|lia|]. cbn. repeat f_equal. lia. }
  assert (seq 0 sz = 0 :: seq 1 (sz - 1)) as Hseq1.
  { destruct sz as [|sz']; [lia|]. cbn. repeat f_equal. lia. }
  destruct (valid_prob_recip sz Hsz0) as (q & Hrecip & Hq).
  destruct (inner_loop_ok q (seq 0 sz) (Z.of_nat sz) seeds
              (replicate sz 0%Z) w Hq Hseeds)
    as (seeds' & seeds_i' & w1 & Hinner & Hall & Hlen').
  { apply Forall_forall. intros i Hi. apply elem_of_seq in Hi. lia. }
  rewrite j_after_first_patch in Hinner by exact Hsz0.
  assert (self w1 = self w) as Hself.
  { pose proof (preserves_for_each self (add_seeds_draw (Fin q))
                  (seq 0 sz) (Z.of_nat sz, seeds, replicate sz 0%Z)
                  (self_add_seeds_draw (Fin q)) w) as Hp.
    now rewrite Hinner in Hp. }
  destruct (patch_add_seeds_ok w1 0 seeds_i') as (w2 & Hadd & _).
  { rewrite Hself. fold sz. lia. }
  assert (add_seeds_patch sz 0 (Z.of_nat sz, seeds, []) w
          = (Ok (0%Z, seeds', [] ++ [seeds_i']), w2)) as Hfirst.
  { unfold add_seeds_patch. rewrite Hrecip.
    rewrite (bind_Ok _ _ _ _ _ Hinner). cbn beta iota.
    now rewrite (bind_Ok _ _ _ _ _ Hadd). }
  rewrite Hseq. cbn [for_each].
  rewrite (bind_Ok _ _ _ _ _ Hfirst).
  apply fst_bind_Undefined.
  unfold add_seeds_patch. change (recip 0) with Inf.
  apply fst_bind_Undefined.
  destruct (lookup_lt_is_Some_2 seeds' 0) as [n Hn]; [lia|].
  rewrite Hseq1. cbn [for_each].
  apply fst_bind_Undefined. now apply add_seeds_draw_inf with n.
Qed.

(** A draw with [p == 1] takes all that remains for the species. *)
Lemma add_seeds_draw_one q i j seeds seeds_i (w : World) n :
  Qeq_bool q 1 = true -> seeds !! i = Some n -> int_count n ->
  exists w',
    add_seeds_draw (Fin q) i (j, seeds, seeds_i) w
    = (Ok (size_t_decr j, <[i := 0%Z]> seeds, <[i := n]> seeds_i), w').
Proof.
  intros Hq Hi Hn. unfold add_seeds_draw, vector_at. rewrite Hi.
  eexists.
  rewrite (bind_Ok _ _ w n w) by reflexivity.
  erewrite bind_Ok by apply with_generator_run.
  rewrite rbinom_one by (try apply Hn; exact Hq).
  cbn [int_of_draw].
  erewrite bind_Ok
    by (unfold lift; rewrite int_checked_count by exact Hn; reflexivity).
  rewrite Z.sub_diag.
  erewrite bind_Ok by reflexivity.
  reflexivity.
Qed.

(** With a single patch the loop hands over the count of the first
    species, with probability one, and nothing else. *)
Theorem add_seeds_single_patch (w : World) (s : Z) (others : list Z) :
  size (self w) = 1 -> int_count s ->
  fst (add_seeds (s :: others) w) = Ok [[s]].
Proof.
  intros Hsz Hs.
  destruct (add_seeds_draw_one 1%Q 0 (Z.of_nat 1) (s :: others) [0%Z] w s
              eq_refl eq_refl Hs) as (w1 & Hdraw).
  assert (self w1 = self w) as Hself.
  { pose proof (self_add_seeds_draw (Fin 1%Q) 0
                  (Z.of_nat 1, s :: others, [0%Z]) w) as Hp.
    now rewrite Hdraw in Hp. }
  destruct (patch_add_seeds_ok w1 0 [s]) as (w2 & Hadd & _).
  { rewrite Hself. lia. }
  unfold add_seeds, for_each_patch.
  rewrite (bind_Ok _ _ w 1 w) by (unfold gets; now rewrite Hsz).
  match goal with
  | |- fst (bind ?c _ _) = _ =>
      assert (exists j' seeds' w', c w = (Ok (j', seeds', [[s]]), w'))
        as (j' & seeds' & w' & Hloop)
  end.
  { eexists _, _, _.
    rewrite (bind_Ok _ _ w 1 w) by (unfold gets; now rewrite Hsz).
    cbn [seq for_each]. unfold add_seeds_patch.
    change (recip (Z.of_nat 1)) with (Fin 1%Q).
    cbn [seq for_each replicate].
    erewrite bind_Ok.
    2:{ erewrite bind_Ok.
        2:{ erewrite bind_Ok by exact Hdraw. reflexivity. }
        cbn beta iota.
        erewrite bind_Ok by exact Hadd. reflexivity. }
    reflexivity. }
  now rewrite (bind_Ok _ _ _ _ _ Hloop).
Qed.

(** ** The scheme of the specification conserves seeds *)

Lemma spec_draw_species_lookup q (remaining : list Z) (g : rng) :
  valid_prob q = true ->
  Forall (fun n => (0 <= n)%Z) remaining ->
  Forall (fun n => (0 <= n)%Z) (snd (fst (spec_draw_species (Fin q) remaining g)))
  /\ forall i n, remaining !! i = Some n ->
       exists k,
         fst (fst (spec_draw_species (Fin q) remaining g)) !! i = Some k /\
         snd (fst (spec_draw_species (Fin q) remaining g)) !! i
         = Some (n - k)%Z /\
         (0 <= k <= n)%Z /\
         (Qeq_bool q 1 = true -> k = n).
Proof.
  intros Hq. revert g.
  induction remaining as [|n0 rest IH]; intros g Hall.
  - split; [constructor|]. intros i n Hi. discriminate.
  - apply Forall_cons in Hall as [Hn0 Hrest]. cbn [spec_draw_species].
    destruct (rbinom_range n0 q g Hn0 Hq) as (k0 & Hk0 & Hrange).
    pose proof (rbinom_one n0 q g Hn0) as Hone.
    destruct (rbinom n0 (Fin q) g) as [d g1]. cbn in Hk0, Hone. subst d.
    specialize (IH g1 Hrest).
    destruct (spec_draw_species (Fin q) rest g1) as [[ks rs] g2].
    cbn in IH |- *. destruct IH as [IHall IHi]. split.
    + constructor; [lia | exact IHall].
    + intros [|i] n Hi; cbn in Hi |- *.
      * injection Hi as <-. exists k0. repeat split; try lia.
        intros E. specialize (Hone E). now injection Hone.
      * now apply IHi.
Qed.

Lemma column_sum_spec_allocate (j : nat) (remaining : list Z) (g : rng) :
  j <> 0 ->
  Forall (fun n => (0 <= n)%Z) remaining ->
  forall i n, remaining !! i = Some n ->
    column_sum (fst (spec_allocate j remaining g)) i = n.
Proof.
  intros Hj. destruct j as [|j]; [contradiction|]. clear Hj.
  revert remaining g. induction j as [|j IH]; intros remaining g Hall i n Hi.
  - cbn [spec_allocate]. change (recip (Z.of_nat 1)) with (Fin 1%Q).
    destruct (spec_draw_species_lookup 1%Q remaining g eq_refl Hall)
      as [_ Hdraw].
    destruct (Hdraw i n Hi) as (k & Hk & _ & _ & Hone).
    destruct (spec_draw_species (Fin 1%Q) remaining g) as [[ks rs] g1].
    cbn in Hk |- *. unfold column_sum. cbn. rewrite Hk. cbn.
    rewrite (Hone eq_refl). lia.
  - remember (S j) as j1 eqn:Ej1. cbn [spec_allocate].
    destruct (valid_prob_recip (S j1)) as (q & Hrecip & Hq); [lia|].
    rewrite Hrecip.
    destruct (spec_draw_species_lookup q remaining g Hq Hall)
      as [Hrs Hdraw].
    destruct (Hdraw i n Hi) as (k & Hk & Hr & _ & _).
    destruct (spec_draw_species (Fin q) remaining g) as [[ks rs] g1].
    cbn in Hk, Hr, Hrs. subst j1.
    specialize (IH rs g1 Hrs i (n - k)%Z Hr).
    destruct (spec_allocate (S j) rs g1) as [rows g2].
    cbn in IH |- *. unfold column_sum in IH |- *. cbn.
    rewrite Hk, IH. cbn. lia.
Qed.

(** The scheme section 4.4 describes gives every seed to some patch:
    for one patch or more and non-negative totals, the allocations sum
    to the totals, species by species. *)
Theorem spec_allocate_conserves (j : nat) (seeds : list Z) (g : rng) :
  j <> 0 ->
  Forall (fun n => (0 <= n)%Z) seeds ->
  allocated (length seeds) (fst (spec_allocate j seeds g)) = seeds.
Proof.
  intros Hj Hall. apply list_eq. intros i. unfold allocated.
  rewrite list_lookup_fmap.
  destruct (seeds !! i) as [n|] eqn:Hi.
  - rewrite lookup_seq_lt by (eapply lookup_lt_Some; eassumption).
    cbn. f_equal. now apply column_sum_spec_allocate.
  - rewrite lookup_seq_ge; [reflexivity|].
    now apply lookup_ge_None.
Qed.


End Allocation.

(** ** The vector that [births] returns *)

Lemma sum_elementwise_length (a b r : list Z) :
  length b = length a -> sum_elementwise a b = Ok r -> length r = length a.
Proof.
  revert b r. induction a as [|x a IH]; intros [|y b] r Hlen E;
    cbn in Hlen, E; try discriminate.
  - now injection E as <-.
  - destruct (int_checked (x + y)) as [s|e|u]; try discriminate.
    destruct (sum_elementwise a b) as [r'|e|u] eqn:Er; try discriminate.
    injection E as <-. cbn. f_equal. apply (IH b); [lia|exact Er].
Qed.

Lemma util_sum_length (a b r : list Z) :
  util_sum a b = Ok r -> length r = length a.
Proof.
  unfold util_sum, check_length.
  destruct (Nat.eqb_spec (length b) (length a)) as [Hlen|_]; [|discriminate].
  now apply sum_elementwise_length.
Qed.

Lemma for_each_births_length idxs (acc : list Z) (w : World) r :
  fst (for_each idxs
         (fun patch n => bind (patch_births patch)
                              (fun b => lift (util_sum n b))) acc w) = Ok r ->
  length r = length acc.
Proof.
  revert acc w. induction idxs as [|i idxs IH]; intros acc w E;
    cbn [for_each] in E.
  - cbn in E. now injection E as <-.
  - unfold bind at 1 in E.
    destruct (bind (patch_births i) _ w) as [[acc'|e|u] w1] eqn:Ebody;
      try discriminate.
    rewrite (IH acc' w1 E).
    unfold bind in Ebody.
    destruct (patch_births i w) as [[b|e|u] w0]; try discriminate.
    unfold lift in Ebody.
    destruct (util_sum acc b) as [s|e|u] eqn:Esum; try discriminate.
    injection Ebody as <- _. now apply util_sum_length with b.
Qed.

(** Whenever [births] returns a vector, the vector has one entry per
    patch. *)
Theorem births_length_is_size (w : World) (n : list Z) :
  fst (births w) = Ok n -> length n = size (self w).
Proof.
  unfold births, for_each_patch.
  rewrite (bind_Ok _ _ w (size (self w)) w) by reflexivity.
  rewrite (bind_Ok _ _ w (size (self w)) w) by reflexivity.
  intros E. apply for_each_births_length in E.
  now rewrite length_replicate in E.
Qed.

End Generic.
End Facts.

(** * The instances obey their interfaces *)

Module Instances.

(** ** The recording generator answers as R documents *)

Lemma valid_prob_of_one (q : Q) : Qeq_bool q 1 = true -> valid_prob q = true.
Proof.
  intros E. apply Qeq_bool_iff in E. unfold valid_prob.
  apply andb_true_iff. split; apply Qle_bool_iff; rewrite E; discriminate.
Qed.

Lemma not_zero_of_one (q : Q) : Qeq_bool q 1 = true -> Qeq_bool q 0 = false.
Proof.
  intros E. apply Qeq_bool_iff in E.
  destruct (Qeq_bool q 0) eqn:E0; [|reflexivity].
  apply Qeq_bool_iff in E0. rewrite E in E0. discriminate.
Qed.

#[global] Instance tape_laws : SamplerLaws Tape.rng.
Proof.
  split.
  - intros n g. reflexivity.
  - intros n q g Hbad. cbn. unfold Tape.rbinom_tape.
    destruct Hbad as [Hn|Hq].
    + apply Z.ltb_lt in Hn. now rewrite Hn.
    + rewrite Hq. cbn. now rewrite orb_true_r.
  - intros n q g Hn Hq. cbn. unfold Tape.rbinom_tape.
    rewrite Hq. cbn. destruct (Z.ltb_spec n 0); [lia|]. cbn.
    destruct ((n =? 0)%Z || Qeq_bool q 0)%bool.
    + exists 0%Z. split; [reflexivity|lia].
    + destruct (Qeq_bool q 1).
      * exists n. split; [reflexivity|lia].
      * exists (Tape.state g mod (n + 1))%Z. split; [reflexivity|].
        pose proof (Z.mod_pos_bound (Tape.state g) (n + 1)). lia.
  - intros n q g Hn Hq. cbn. unfold Tape.rbinom_tape.
    rewrite (valid_prob_of_one q Hq), (not_zero_of_one q Hq), Hq. cbn.
    destruct (Z.ltb_spec n 0); [lia|]. cbn.
    destruct (Z.eqb_spec n 0) as [->|_]; reflexivity.
Qed.

(** ** The patch of the specification obeys the State Vector Protocol *)

Section SpecPatchLaws.

Context {rng : Type} `{!Sampler rng}.

Lemma cohort_values_set_written (c : list SpecPatch.Individual) rest :
  SpecPatch.cohort_values_set c (map SpecPatch.height c ++ rest)
  = Some (c, rest).
Proof.
  induction c as [|[h] c IH]; cbn.
  - reflexivity.
  - now rewrite IH.
Qed.

Lemma species_values_set_written (spp : list (list SpecPatch.Individual)) rest :
  SpecPatch.species_values_set
    spp (concat (map (map SpecPatch.height) spp) ++ rest)
  = Some (spp, rest).
Proof.
  induction spp as [|c spp IH]; cbn.
  - reflexivity.
  - rewrite <- app_assoc, cohort_values_set_written. now rewrite IH.
Qed.

Lemma cohort_values_set_length (c : list SpecPatch.Individual) it c' it' :
  SpecPatch.cohort_values_set c it = Some (c', it') -> length c' = length c.
Proof.
  revert it c' it'. induction c as [|i c IH]; intros it c' it' E; cbn in E.
  - now injection E as <- _.
  - destruct it as [|h it]; [discriminate|].
    destruct (SpecPatch.cohort_values_set c it) as [[c'' it'']|] eqn:Ec;
      [|discriminate].
    injection E as <- _. cbn. f_equal. eapply IH. eassumption.
Qed.

Lemma species_values_set_lengths (spp : list (list SpecPatch.Individual))
    it spp' it' :
  SpecPatch.species_values_set spp it = Some (spp', it') ->
  map length spp' = map length spp.
Proof.
  revert it spp' it'.
  induction spp as [|c spp IH]; intros it spp' it' E; cbn in E.
  - now injection E as <- _.
  - destruct (SpecPatch.cohort_values_set c it) as [[c' it1]|] eqn:Ec;
      [|discriminate].
    destruct (SpecPatch.species_values_set spp it1) as [[spp1 it2]|] eqn:Es;
      [|discriminate].
    injection E as <- _. cbn. f_equal.
    + eapply cohort_values_set_length. eassumption.
    + eapply IH. eassumption.
Qed.

Lemma spec_patch_values_length (p : SpecPatch.Patch) :
  length (SpecPatch.Patch_ode_values p) = SpecPatch.Patch_ode_size p.
Proof.
  unfold SpecPatch.Patch_ode_values, SpecPatch.Patch_ode_size.
  induction (SpecPatch.species p) as [|c spp IH]; cbn.
  - reflexivity.
  - now rewrite length_app, length_map, IH.
Qed.

#[global] Instance spec_patch_laws
  : PatchLaws Q SpecPatch.Strategy rng SpecPatch.Patch.
Proof.
  split.
  - intros p. apply spec_patch_values_length.
  - intros p rest. cbn. unfold SpecPatch.Patch_ode_values_set, SpecPatch.Patch_ode_values.
    rewrite species_values_set_written. now destruct p.
  - intros p it p' it' E. cbn in E |- *.
    unfold SpecPatch.Patch_ode_values_set in E.
    destruct (SpecPatch.species_values_set (SpecPatch.species p) it)
      as [[spp it1]|] eqn:Es; [|discriminate].
    injection E as <- _.
    apply species_values_set_lengths in Es.
    unfold SpecPatch.Patch_ode_size, SpecPatch.Patch_r_n_individuals. cbn.
    split.
    + now rewrite Es.
    + rewrite <- !(map_map length Z.of_nat). now rewrite Es.
Qed.

End SpecPatchLaws.

End Instances.

(** * The code on explicit inputs *)

Module Runs.
Import Model Demo.

(** ** [add_seeds] *)

(** C1.  Two failing calls of [add_seeds].  With two patches and two
    species, [add_seeds([10, 10])] draws for the first patch with
    [p = 1/2], leaves the inner loop with [j = 0] and asks for the
    second patch a draw with [p = 1/0]: the answer is NaN, its
    conversion to [int] is undefined, and no allocation comes out.  With
    one patch and two species, [add_seeds([3, 4])] hands [[3]] to the
    patch: the allocations sum to [3; 0], and the four seeds of the
    second species reach no patch. *)
Theorem add_seeds_loses_seeds :
  (let r := add_seeds [10; 10]%Z (empty_world 2 2 7) in
   fst r = Undefined NaNToInt /\
   Tape.requests (generator (snd r))
   = [(10%Z, Fin (1 # 2)); (10%Z, Fin (1 # 2)); (3%Z, Inf)]) /\
  (let r := add_seeds [3; 4]%Z (empty_world 1 2 7) in
   exists allocation,
     fst r = Ok allocation /\
     allocated 2 allocation = [3; 0]%Z /\
     allocated 2 allocation <> [3; 4]%Z /\
     census (snd r) = [[3; 0]]%Z).
Proof.
  split.
  - vm_compute. split; reflexivity.
  - exists [[3%Z]]. vm_compute. repeat split; try reflexivity. discriminate.
Qed.

(** C3.  On two patches and two species the draws of the code and of
    the scheme of section 4.4 part at the third request: the scheme asks
    [Binomial(3, 1)] and [Binomial(1, 1)] for the last patch and
    allocates [[7; 9]; [3; 1]], the code has decremented [j] to zero
    inside the first patch and asks [Binomial(3, 1/0)], after which its
    behaviour is undefined. *)
Theorem add_seeds_departs_from_scheme :
  let code := add_seeds [10; 10]%Z (empty_world 2 2 7) in
  let scheme := spec_allocate 2 [10; 10]%Z (Tape.fresh 7) in
  Tape.requests (generator (snd code))
  = [(10%Z, Fin (1 # 2)); (10%Z, Fin (1 # 2)); (3%Z, Inf)] /\
  fst code = Undefined NaNToInt /\
  Tape.requests (snd scheme)
  = [(10%Z, Fin (1 # 2)); (10%Z, Fin (1 # 2));
     (3%Z, Fin 1); (1%Z, Fin 1)] /\
  fst scheme = [[7; 9]; [3; 1]]%Z /\
  fst code <> Ok (fst scheme).
Proof.
  vm_compute. repeat split; try reflexivity. discriminate.
Qed.

(** C5.  With a single patch and two species, [add_seeds([3, 4])] asks
    one draw, [Binomial(3, 1)], hands the vector [[3]] to the patch and
    returns: the patch holds three seedlings of the first species and
    none of the second. *)
Theorem add_seeds_single_patch_drops_species :
  let r := add_seeds [3; 4]%Z (empty_world 1 2 7) in
  fst r = Ok [[3%Z]] /\
  Tape.requests (generator (snd r)) = [(3%Z, Fin 1)] /\
  census (snd r) = [[3; 0]]%Z /\
  census (snd r) <> [[3; 4]]%Z.
Proof.
  vm_compute. repeat split; try reflexivity. discriminate.
Qed.

(** ** [births] *)

(** C4.  In a metacommunity of one patch and two species, each species
    with one individual bearing two seeds, [births()] starts from a
    vector with one entry per patch, and [util::sum] refuses to add the
    patch's two counts to it: no vector of length two comes out.  With
    two patches and two species the same call returns [4; 4]. *)
Theorem births_sized_by_patches :
  n_species (self (seeded_world 1 2 7)) = 2 /\
  size (self (seeded_world 1 2 7)) = 1 /\
  census (seeded_world 1 2 7) = [[1; 1]]%Z /\
  fst (births (seeded_world 1 2 7)) = Throw (IncorrectLength 1 2) /\
  fst (births (seeded_world 2 2 7)) = Ok [4; 4]%Z.
Proof.
  vm_compute. repeat split; reflexivity.
Qed.

(** ** The solver across a stochastic step *)

(** C6 fails as stated: in a metacommunity of one patch and one species
    holding one individual, [step_stochastic] succeeds and takes the
    population from one individual to three; the [step_deterministic]
    that follows makes the solver take a step, and the calls made on the
    solver up to then are [set_state], [step], [get_time] -- [reset] is
    not among them. *)
Lemma stochastic_step_without_reset :
  let w0 := seeded_world 1 1 7 in
  let r1 := step_stochastic w0 in
  let r2 := step_deterministic 0%Q (snd r1) in
  fst r1 = Ok tt /\
  census w0 = [[1%Z]] /\
  census (snd r1) = [[3%Z]] /\
  fst r2 = Ok tt /\
  calls (snd r2)
  = [SetState [1 # 2; 1 # 2; 1 # 2]%Q 0%Q; Step; GetTime] /\
  ~ In Reset (calls (snd r2)).
Proof.
  vm_compute. repeat split; try reflexivity.
  intros [H|[H|[H|[]]]]; discriminate.
Qed.

(** ** The general theorems at explicit inputs *)

(** The round trip of C2 in a metacommunity of two patches and two
    species with one seedling each, the patches being those of
    [SpecPatch]. *)
Lemma ode_values_set_round_trip_witness :
  let w := seeded_world 2 2 7 in
  ode_values_set (ode_values (self w)) w = (Ok [], w) /\
  ode_values (self (snd (ode_values_set (ode_values (self w)) w)))
  = ode_values (self w) /\
  forall time,
    derivs time (ode_values (self w)) w = (Ok (ode_rates (self w)), w).
Proof.
  exact (Facts.ode_values_set_round_trip (seeded_world 2 2 7)).
Defined.

(** The rejection of C9: a matrix of three columns offered to a
    metacommunity of two patches. *)
Lemma r_add_seedlings_rejects_wrong_shape_witness :
  let w := seeded_world 2 2 7 in
  (ncol three_columns <> size (self w) \/
   nrow three_columns <> n_species (self w)) /\
  exists e, r_add_seedlings three_columns w = (Throw e, w).
Proof.
  assert (ncol three_columns <> size (self (seeded_world 2 2 7)) \/
          nrow three_columns <> n_species (self (seeded_world 2 2 7)))
    as Hshape by (left; vm_compute; lia).
  split; [exact Hshape|].
  exact (Facts.r_add_seedlings_rejects_wrong_shape _ _ Hshape).
Defined.

(** The frame of C10 for one Euler step of a metacommunity of two
    patches and two species with one seedling each. *)
Lemma step_deterministic_frame_witness :
  let w := seeded_world 2 2 7 in
  is_defined (fst (step_deterministic 0%Q w)) = true /\
  let w' := snd (step_deterministic 0%Q w) in
  parameters (self w') = parameters (self w) /\
  generator w' = generator w /\
  size (self w') = size (self w) /\
  map p_r_n_individuals (patches (self w'))
  = map p_r_n_individuals (patches (self w)) /\
  r_n_individuals (self w') = r_n_individuals (self w) /\
  ode_size (self w') = ode_size (self w).
Proof.
  assert (is_defined (fst (step_deterministic 0%Q (seeded_world 2 2 7)))
          = true) as Hdefined by (vm_compute; reflexivity).
  split; [exact Hdefined|].
  exact (Facts.step_deterministic_frame 0%Q (seeded_world 2 2 7) Hdefined).
Defined.

(** A run of [step_stochastic] against a run in a process with another
    host seed and another log, and a run of [r_step_stochastic] against
    a run in a process whose generator was left in another state. *)
Lemma step_stochastic_reproducible_witness :
  let w := seeded_world 1 1 7 in
  (fst (step_stochastic w) = fst (step_stochastic (other_host w 11)) /\
   self (snd (step_stochastic w))
   = self (snd (step_stochastic (other_host w 11))) /\
   r_n_individuals (self (snd (step_stochastic w)))
   = r_n_individuals (self (snd (step_stochastic (other_host w 11)))) /\
   generator (snd (step_stochastic w))
   = generator (snd (step_stochastic (other_host w 11)))) /\
  (fst (r_step_stochastic w)
   = fst (r_step_stochastic (stale_generator w 11)) /\
   self (snd (r_step_stochastic w))
   = self (snd (r_step_stochastic (stale_generator w 11))) /\
   r_n_individuals (self (snd (r_step_stochastic w)))
   = r_n_individuals (self (snd (r_step_stochastic (stale_generator w 11)))) /\
   generator (snd (r_step_stochastic w))
   = generator (snd (r_step_stochastic (stale_generator w 11))) /\
   (is_defined (fst (r_step_stochastic w)) = true ->
    seed (snd (r_step_stochastic w))
    = seed (snd (r_step_stochastic (stale_generator w 11))))).
Proof.
  split.
  - exact (proj1 (Facts.step_stochastic_reproducible
                    (seeded_world 1 1 7)
                    (other_host (seeded_world 1 1 7) 11) eq_refl)
                 eq_refl).
  - exact (proj2 (Facts.step_stochastic_reproducible
                    (seeded_world 1 1 7)
                    (stale_generator (seeded_world 1 1 7) 11) eq_refl)
                 eq_refl).
Defined.

(** The second patch of three, under the recording generator. *)
Lemma add_seeds_second_patch_undefined_witness :
  fst (add_seeds [5; 6; 7]%Z (empty_world 3 3 7)) = Undefined NaNToInt.
Proof.
  apply Facts.add_seeds_second_patch_undefined.
  - vm_compute. lia.
  - vm_compute. lia.
  - repeat constructor; unfold int_count, INT_MAX; lia.
Defined.

(** The single patch receives the count of the first species. *)
Lemma add_seeds_single_patch_witness :
  fst (add_seeds [3; 4]%Z (empty_world 1 2 7)) = Ok [[3%Z]].
Proof.
  apply Facts.add_seeds_single_patch.
  - reflexivity.
  - unfold int_count, INT_MAX. lia.
Defined.

(** The scheme of the specification on three patches and three
    species. *)
Lemma spec_allocate_conserves_witness :
  allocated 3 (fst (spec_allocate 3 [10; 10; 0]%Z (Tape.fresh 7)))
  = [10; 10; 0]%Z.
Proof.
  apply (Facts.spec_allocate_conserves 3 [10; 10; 0]%Z (Tape.fresh 7)).
  - lia.
  - repeat constructor; lia.
Defined.

(** Two patches and two species: [births] returns two entries. *)
Lemma births_length_is_size_witness :
  length [4; 4]%Z = size (self (seeded_world 2 2 7)).
Proof.
  apply Facts.births_length_is_size. vm_compute. reflexivity.
Defined.

End Runs.

(** * The remaining operations *)

Module Operations.
Import Model Further Facts.

Section Generic.

Context {D Strategy rng Patch Solver : Type}.
Context `{!Sampler rng}.
Context `{!PatchOps D Strategy rng Patch}.
Context `{!SolverOps D Solver}.

Variable dzero : D.

Abbreviation World := (@Model.World D Strategy rng Patch Solver).
Abbreviation Metacommunity := (@Model.Metacommunity D Strategy Patch Solver).
Abbreviation M := (@Model.M D Strategy rng Patch Solver).
Abbreviation preserves := (@Model.preserves D Strategy rng Patch Solver).

(** ** Construction *)

Lemma iter_push {A} (x : A) (n : nat) (l : list A) :
  Nat.iter n (fun ps => ps ++ [x]) l = l ++ replicate n x.
Proof.
  induction n as [|n IH].
  - cbn. now rewrite app_nil_r.
  - rewrite Nat.iter_succ, IH, <- app_assoc. f_equal.
    clear IH. induction n as [|n IH]; cbn; [reflexivity|]. now rewrite IH.
Qed.

(** A constructed metacommunity holds [n_patches] fresh patches, all
    alike, and none when [n_patches] is zero or negative ([Z.to_nat]
    sends those to zero: the loop body is never entered and nothing is
    raised); its age is [0.0] and its solver is new. *)
Theorem Metacommunity_new_patches (p : Parameters Strategy) :
  patches (Metacommunity_new (rng := rng) dzero p)
  = replicate (Z.to_nat (n_patches p)) (p_new p) /\
  size (Metacommunity_new (rng := rng) dzero p) = Z.to_nat (n_patches p) /\
  parameters (Metacommunity_new (rng := rng) dzero p) = p /\
  age (Metacommunity_new (rng := rng) dzero p) = dzero /\
  ode_solver (Metacommunity_new (rng := rng) dzero p) = s_new.
Proof.
  assert (patches (Metacommunity_new (rng := rng) dzero p)
          = replicate (Z.to_nat (n_patches p)) (p_new p)) as Hps.
  { unfold Metacommunity_new, initialise. cbn. now rewrite iter_push. }
  assert (size (Metacommunity_new (rng := rng) dzero p)
          = Z.to_nat (n_patches p)) as Hsz.
  { unfold size. now rewrite Hps, length_replicate. }
  repeat split; assumption.
Qed.

(** ** A pass over the patches in place *)

Lemma rewritten_same (w : World) :
  rewritten (patches (self w)) (generator w) w = w.
Proof. now destruct w as [[pa ps a s] g sd c]. Qed.

Lemma rewritten_twice ps g ps' g' (w : World) :
  rewritten ps' g' (rewritten ps g w) = rewritten ps' g' w.
Proof. reflexivity. Qed.

Section Pass.

Variable f : nat -> Patch -> rng -> Patch * rng.
Variable body : nat -> unit -> M unit.

Hypothesis body_visits : forall i acc (w : World) p,
  patches (self w) !! i = Some p ->
  body i acc w
  = (Ok tt, rewritten (<[i := fst (f i p (generator w))]> (patches (self w)))
                      (snd (f i p (generator w))) w).

Lemma pass_from (n k : nat) (w : World) :
  k + n = size (self w) ->
  for_each (seq k n) body tt w
  = (Ok tt,
     rewritten
       (take k (patches (self w))
        ++ fst (thread f k (drop k (patches (self w))) (generator w)))
       (snd (thread f k (drop k (patches (self w))) (generator w))) w).
Proof.
  revert k w. induction n as [|n IH]; intros k w Hk; unfold size in Hk.
  - rewrite drop_ge by lia. cbn. rewrite app_nil_r, take_ge by lia.
    now rewrite rewritten_same.
  - destruct (lookup_lt_is_Some_2 (patches (self w)) k) as [p Hp]; [lia|].
    cbn [seq for_each].
    rewrite (bind_Ok _ _ w tt _ (body_visits k tt w p Hp)).
    rewrite IH by (unfold size; cbn; rewrite length_insert; lia).
    rewrite rewritten_twice. cbn [rewritten self patches generator].
    rewrite (drop_S _ _ _ Hp). cbn [thread].
    destruct (f k p (generator w)) as [p' g1]. cbn [fst snd].
    rewrite drop_insert_lt by lia.
    destruct (thread f (S k) (drop (S k) (patches (self w))) g1)
      as [ps'' g2]. cbn [fst snd].
    rewrite (take_S_r (<[k:=p']> (patches (self w))) k p')
      by (apply list_lookup_insert_eq; lia).
    rewrite take_insert_ge by lia.
    now rewrite <- app_assoc.
Qed.

Lemma pass_all (w : World) :
  for_each_patch body tt w
  = (Ok tt,
     rewritten (fst (thread f 0 (patches (self w)) (generator w)))
               (snd (thread f 0 (patches (self w)) (generator w))) w).
Proof.
  unfold for_each_patch.
  rewrite (bind_Ok _ _ w (size (self w)) w) by reflexivity.
  now rewrite (pass_from (size (self w)) 0 w).
Qed.

End Pass.

Lemma thread_pure (h : nat -> Patch -> Patch) (k : nat) (ps : list Patch)
    (g : rng) :
  thread (fun i p g => (h i p, g)) k ps g
  = (imap (fun i => h (k + i)) ps, g).
Proof.
  revert k. induction ps as [|p ps IH]; intros k; cbn [thread].
  - reflexivity.
  - rewrite IH. cbn. rewrite Nat.add_0_r. do 2 f_equal.
    apply imap_ext. intros i x _. cbn. f_equal. lia.
Qed.

Lemma thread_length f (k : nat) (ps : list Patch) (g : rng) :
  length (fst (thread f k ps g)) = length ps.
Proof.
  revert k g. induction ps as [|p ps IH]; intros k g; cbn [thread].
  - reflexivity.
  - destruct (f k p g) as [p' g1]. specialize (IH (S k) g1).
    destruct (thread f (S k) ps g1) as [ps'' g2]. cbn in *. now rewrite IH.
Qed.

(** ** [deaths], [r_clear] and [r_add_seedlings] as passes *)

Lemma patch_deaths_visits i (acc : unit) (w : World) p :
  patches (self w) !! i = Some p ->
  patch_deaths i w
  = (Ok tt, rewritten (<[i := fst (p_deaths p (generator w))]> (patches (self w)))
                      (snd (p_deaths p (generator w))) w).
Proof.
  intros Hp. unfold patch_deaths.
  rewrite (bind_Ok _ _ w p w (patch_at_Some w i p Hp)).
  erewrite bind_Ok by apply with_generator_run.
  reflexivity.
Qed.

Lemma deaths_run (w : World) :
  deaths w
  = (Ok tt,
     rewritten
       (fst (thread (fun _ p g => p_deaths p g) 0
                    (patches (self w)) (generator w)))
       (snd (thread (fun _ p g => p_deaths p g) 0
                    (patches (self w)) (generator w))) w).
Proof.
  unfold deaths.
  apply (pass_all (fun _ p g => p_deaths p g)
                  (fun patch (_ : unit) => patch_deaths patch)).
  intros i acc w0 p Hp. now apply patch_deaths_visits.
Qed.

(** [deaths] always succeeds; it calls [Patch::deaths] on every patch
    once, in index order, each call starting from the generator state
    the call before left; it keeps the number of patches and leaves the
    parameters, the age, the solver and the host seed as they were. *)
Theorem deaths_is_a_pass (w : World) :
  deaths w
  = (Ok tt,
     rewritten
       (fst (thread (fun _ p g => p_deaths p g) 0
                    (patches (self w)) (generator w)))
       (snd (thread (fun _ p g => p_deaths p g) 0
                    (patches (self w)) (generator w))) w) /\
  size (self (snd (deaths w))) = size (self w).
Proof.
  split; [apply deaths_run|]. rewrite deaths_run.
  unfold size. cbn. apply thread_length.
Qed.

Lemma r_clear_loop (w : World) :
  for_each_patch (fun patch (_ : unit) => patch_r_clear patch) tt w
  = (Ok tt, rewritten (p_r_clear <$> patches (self w)) (generator w) w).
Proof.
  rewrite (pass_all (fun _ p g => (p_r_clear p, g))
                    (fun patch (_ : unit) => patch_r_clear patch)).
  - rewrite (thread_pure (fun _ => p_r_clear)). cbn [fst snd].
    now rewrite <- imap_const.
  - intros i acc w0 p Hp. unfold patch_r_clear.
    now rewrite (bind_Ok _ _ w0 p w0 (patch_at_Some w0 i p Hp)).
Qed.

(** [r_clear] succeeds; afterwards the age is [0.0], every patch is the
    cleared patch ([Patch::r_clear]) at the same position, the solver is
    the solver reset, and the parameters, the generator and the host
    seed are as before. *)
Theorem r_clear_clears (w : World) :
  fst (r_clear dzero w) = Ok tt /\
  age (self (snd (r_clear dzero w))) = dzero /\
  patches (self (snd (r_clear dzero w))) = p_r_clear <$> patches (self w) /\
  parameters (self (snd (r_clear dzero w))) = parameters (self w) /\
  generator (snd (r_clear dzero w)) = generator w /\
  seed (snd (r_clear dzero w)) = seed w /\
  ode_solver (self (snd (r_clear dzero w))) = s_reset (ode_solver (self w)).
Proof.
  unfold r_clear.
  rewrite (bind_Ok _ _ w tt (snd (set_age dzero w))) by reflexivity.
  rewrite (bind_Ok _ _ _ tt _ (r_clear_loop (snd (set_age dzero w)))).
  cbn. repeat split; reflexivity.
Qed.

Lemma seedlings_loop (seeds : IntegerMatrix) (w : World) :
  for_each (seq 0 (size (self w)))
    (fun i (_ : unit) =>
       bind (patch_at i)
            (fun patch => put_patch i (p_add_seedlings (column seeds i) patch)))
    tt w
  = (Ok tt,
     rewritten (imap (fun i p => p_add_seedlings (column seeds i) p)
                     (patches (self w)))
               (generator w) w).
Proof.
  rewrite (pass_from (fun i p g => (p_add_seedlings (column seeds i) p, g))
                     _ ) with (w := w) (k := 0) (n := size (self w)).
  - rewrite (thread_pure (fun i => p_add_seedlings (column seeds i))).
    reflexivity.
  - intros i acc w0 p Hp.
    now rewrite (bind_Ok _ _ w0 p w0 (patch_at_Some w0 i p Hp)).
  - reflexivity.
Qed.

(** [r_add_seedlings] with a matrix of one column per patch and one row
    per species succeeds: patch [i] receives column [i] through
    [Patch::add_seedlings], and nothing else in the world changes. *)
Theorem r_add_seedlings_by_column (w : World) (seeds : IntegerMatrix) :
  ncol seeds = size (self w) -> nrow seeds = n_species (self w) ->
  r_add_seedlings seeds w
  = (Ok tt,
     rewritten (imap (fun i p => p_add_seedlings (column seeds i) p)
                     (patches (self w)))
               (generator w) w).
Proof.
  intros Hc Hr. unfold r_add_seedlings.
  rewrite (bind_Ok _ _ w (size (self w)) w) by reflexivity.
  rewrite (bind_Ok _ _ w (n_species (self w)) w) by reflexivity.
  rewrite (bind_Ok _ _ w tt w)
    by (unfold lift, check_length; now rewrite Hc, Nat.eqb_refl).
  rewrite (bind_Ok _ _ w tt w)
    by (unfold lift, check_length; now rewrite Hr, Nat.eqb_refl).
  apply seedlings_loop.
Qed.

(** ** What the operations leave alone *)

Section Closure.

Context {V : Type} (view : World -> V).

Hypothesis view_put_patch : forall i p, preserves view (put_patch i p).

Lemma closure_ode_values_set it : preserves view (ode_values_set it).
Proof.
  apply preserves_for_each_patch. intros i a. unfold patch_ode_values_set.
  apply preserves_bind; [apply preserves_patch_at|]. intros p.
  destruct (p_ode_values_set p a) as [[p' it']|]; [|apply preserves_lift].
  apply preserves_bind; [apply view_put_patch|]. intros _.
  apply preserves_ret.
Qed.

Lemma closure_derivs time y : preserves view (derivs time y).
Proof.
  apply preserves_bind; [apply closure_ode_values_set|].
  intros _. apply preserves_gets.
Qed.

Lemma closure_run {A} (c : prog D A) : preserves view (run c).
Proof.
  induction c as [a|e|time y k IH|y k IH|k IH|k IH|k IH]; cbn [run].
  - apply preserves_ret.
  - apply preserves_lift.
  - apply preserves_bind; [apply closure_derivs | exact IH].
  - apply preserves_bind; [apply closure_ode_values_set|].
    intros _. apply IH.
  - apply preserves_bind; [apply preserves_gets | exact IH].
  - apply preserves_bind; [apply preserves_gets | exact IH].
  - apply preserves_bind; [apply preserves_gets | exact IH].
Qed.

Lemma closure_r_add_seedlings seeds : preserves view (r_add_seedlings seeds).
Proof.
  unfold r_add_seedlings.
  apply preserves_bind; [apply preserves_gets|]. intros sz.
  apply preserves_bind; [apply preserves_gets|]. intros ns.
  apply preserves_bind; [apply preserves_lift|]. intros _.
  apply preserves_bind; [apply preserves_lift|]. intros _.
  apply preserves_for_each. intros i a.
  apply preserves_bind; [apply preserves_patch_at|]. intros p.
  apply view_put_patch.
Qed.

Section Drawing.

Hypothesis view_with_generator : forall A (f : rng -> A * rng),
  preserves view (with_generator f).

Lemma closure_deaths : preserves view deaths.
Proof.
  apply preserves_for_each_patch. intros i a. unfold patch_deaths.
  apply preserves_bind; [apply preserves_patch_at|]. intros p.
  apply preserves_bind; [apply view_with_generator|]. intros p'.
  apply view_put_patch.
Qed.

Lemma closure_births : preserves view births.
Proof.
  apply preserves_bind; [apply preserves_gets|]. intros sz.
  apply preserves_for_each_patch. intros i n.
  apply preserves_bind; [|intros b; apply preserves_lift].
  unfold patch_births.
  apply preserves_bind; [apply preserves_patch_at|]. intros p.
  apply preserves_bind; [apply view_with_generator|]. intros [b p'].
  apply preserves_bind; [apply view_put_patch|]. intros _.
  apply preserves_ret.
Qed.

Lemma closure_add_seeds seeds : preserves view (add_seeds seeds).
Proof.
  apply preserves_bind; [apply preserves_gets|]. intros sz.
  apply preserves_bind.
  - apply preserves_for_each_patch. intros i [[j sds] allocation].
    unfold add_seeds_patch. apply preserves_bind.
    + apply preserves_for_each. intros i' [[j' sds'] sds_i].
      unfold add_seeds_draw.
      apply preserves_bind; [apply preserves_lift|]. intros n.
      apply preserves_bind; [apply view_with_generator|]. intros d.
      apply preserves_bind; [apply preserves_lift|]. intros k.
      apply preserves_bind; [apply preserves_lift|]. intros r.
      apply preserves_ret.
    + intros [[j' sds'] seeds_i'].
      apply preserves_bind; [|intros _; apply preserves_ret].
      unfold patch_add_seeds.
      apply preserves_bind; [apply preserves_patch_at|]. intros p.
      apply preserves_bind; [apply view_with_generator|]. intros p'.
      apply view_put_patch.
  - intros [[j sds] allocation]. apply preserves_ret.
Qed.

Lemma closure_step_stochastic : preserves view step_stochastic.
Proof.
  apply preserves_bind; [apply closure_deaths|]. intros _.
  apply preserves_bind; [apply closure_births|]. intros seeds.
  apply preserves_bind; [apply closure_add_seeds|]. intros _.
  apply preserves_ret.
Qed.

End Drawing.

Section Stepping.

Hypothesis view_log_call : forall c, preserves view (log_call c).
Hypothesis view_set_solver : forall s, preserves view (set_solver s).
Hypothesis view_set_age : forall t, preserves view (set_age t).

Lemma closure_step_deterministic : preserves view (step_deterministic dzero).
Proof.
  unfold step_deterministic.
  apply preserves_bind; [apply preserves_gets|]. intros n.
  apply preserves_bind; [apply preserves_gets|]. intros values.
  apply preserves_bind; [apply preserves_lift|]. intros y.
  apply preserves_bind; [apply preserves_gets|]. intros time.
  apply preserves_bind.
  { unfold solver_set_state.
    apply preserves_bind; [apply view_log_call|]. intros _.
    apply preserves_bind; [apply preserves_gets|]. intros n'.
    apply preserves_bind; [apply preserves_lift|]. intros _.
    apply preserves_bind; [apply preserves_gets|]. intros s.
    apply view_set_solver. }
  intros _. apply preserves_bind.
  { unfold solver_step.
    apply preserves_bind; [apply view_log_call|]. intros _.
    apply preserves_bind; [apply preserves_gets|]. intros s.
    apply preserves_bind; [apply closure_run|]. intros s'.
    apply view_set_solver. }
  intros _. apply preserves_bind.
  { unfold solver_get_time.
    apply preserves_bind; [apply view_log_call|]. intros _.
    apply preserves_gets. }
  intros time'. apply view_set_age.
Qed.

Lemma closure_r_clear : preserves view (r_clear dzero).
Proof.
  unfold r_clear.
  apply preserves_bind; [apply view_set_age|]. intros _.
  apply preserves_bind.
  { apply preserves_for_each_patch. intros i a. unfold patch_r_clear.
    apply preserves_bind; [apply preserves_patch_at|]. intros p.
    apply view_put_patch. }
  intros _. unfold solver_reset.
  apply preserves_bind; [apply view_log_call|]. intros _.
  apply preserves_bind; [apply preserves_gets|]. intros s.
  apply view_set_solver.
Qed.

End Stepping.

Lemma closure_RNGScope {A} (body : M A) :
  (forall w, view (GetRNGstate w) = view w) ->
  (forall w, view (PutRNGstate w) = view w) ->
  preserves view body -> preserves view (RNGScope body).
Proof.
  intros Hget Hput Hbody w. unfold RNGScope.
  specialize (Hbody (GetRNGstate w)). rewrite Hget in Hbody.
  destruct (body (GetRNGstate w)) as [[a|e|u] w']; cbn in *;
    rewrite ?Hput; exact Hbody.
Qed.

End Closure.

Lemma layout_put_patch i p : preserves layout (put_patch i p).
Proof.
  intros w. unfold layout, size. cbn. now rewrite length_insert.
Qed.

Lemma layout_with_generator A (f : rng -> A * rng) :
  preserves layout (with_generator f).
Proof. intros w. unfold with_generator. now destruct (f (generator w)). Qed.

Lemma layout_step : preserves layout (step dzero).
Proof.
  apply preserves_bind.
  - now apply closure_step_deterministic; [apply layout_put_patch|..].
  - intros _. apply closure_step_stochastic;
      [apply layout_put_patch | apply layout_with_generator].
Qed.

(** No operation changes the number of patches or the parameters,
    whatever its outcome. *)
Theorem layout_is_fixed (w : World) (seeds : list Z) (y : list D) (time : D)
    (seedlings : IntegerMatrix) :
  layout (snd (step dzero w)) = layout w /\
  layout (snd (step_deterministic dzero w)) = layout w /\
  layout (snd (step_stochastic w)) = layout w /\
  layout (snd (births w)) = layout w /\
  layout (snd (deaths w)) = layout w /\
  layout (snd (add_seeds seeds w)) = layout w /\
  layout (snd (ode_values_set y w)) = layout w /\
  layout (snd (derivs time y w)) = layout w /\
  layout (snd (r_add_seedlings seedlings w)) = layout w /\
  layout (snd (r_clear dzero w)) = layout w /\
  layout (snd (r_step dzero w)) = layout w /\
  layout (snd (r_step_stochastic w)) = layout w.
Proof.
  pose proof layout_put_patch as Hput.
  pose proof layout_with_generator as Hgen.
  repeat split.
  - apply layout_step.
  - now apply closure_step_deterministic.
  - now apply closure_step_stochastic.
  - now apply closure_births.
  - now apply closure_deaths.
  - now apply closure_add_seeds.
  - now apply closure_ode_values_set.
  - now apply closure_derivs.
  - now apply closure_r_add_seedlings.
  - now apply closure_r_clear.
  - apply closure_RNGScope; [reflexivity | reflexivity | apply layout_step].
  - apply closure_RNGScope; [reflexivity | reflexivity |].
    now apply closure_step_stochastic.
Qed.

Lemma clock_put_patch i p : preserves clock_view (put_patch i p).
Proof. intros w. reflexivity. Qed.

Lemma clock_with_generator A (f : rng -> A * rng) :
  preserves clock_view (with_generator f).
Proof. intros w. unfold with_generator. now destruct (f (generator w)). Qed.

(** The age advances in [step_deterministic] and is reset in [r_clear];
    no other operation touches the age, the solver, the calls made on it
    or the host seed. *)
Theorem clock_is_left_alone (w : World) (seeds : list Z) (y : list D)
    (time : D) (seedlings : IntegerMatrix) :
  clock_view (snd (step_stochastic w)) = clock_view w /\
  clock_view (snd (births w)) = clock_view w /\
  clock_view (snd (deaths w)) = clock_view w /\
  clock_view (snd (add_seeds seeds w)) = clock_view w /\
  clock_view (snd (ode_values_set y w)) = clock_view w /\
  clock_view (snd (derivs time y w)) = clock_view w /\
  clock_view (snd (r_add_seedlings seedlings w)) = clock_view w.
Proof.
  pose proof clock_put_patch as Hput.
  pose proof clock_with_generator as Hgen.
  repeat split.
  - now apply closure_step_stochastic.
  - now apply closure_births.
  - now apply closure_deaths.
  - now apply closure_add_seeds.
  - now apply closure_ode_values_set.
  - now apply closure_derivs.
  - now apply closure_r_add_seedlings.
Qed.

Lemma generator_put_patch i p : preserves generator (put_patch i p).
Proof. intros w. reflexivity. Qed.

(** Only [deaths], [births] and [add_seeds] draw from the generator:
    the deterministic step, the ODE interface, [r_add_seedlings] and
    [r_clear] leave its state as it was, whatever their outcome. *)
Theorem generator_is_left_alone (w : World) (y : list D) (time : D)
    (seedlings : IntegerMatrix) :
  generator (snd (step_deterministic dzero w)) = generator w /\
  generator (snd (ode_values_set y w)) = generator w /\
  generator (snd (derivs time y w)) = generator w /\
  generator (snd (r_add_seedlings seedlings w)) = generator w /\
  generator (snd (r_clear dzero w)) = generator w.
Proof.
  pose proof generator_put_patch as Hput.
  repeat split.
  - now apply (closure_step_deterministic generator).
  - now apply (closure_ode_values_set generator).
  - now apply (closure_derivs generator).
  - now apply (closure_r_add_seedlings generator).
  - now apply (closure_r_clear generator).
Qed.

(** ** The matrix of counts *)

Lemma concat_uniform_length {A} (n : nat) (ls : list (list A)) :
  Forall (fun l => length l = n) ls -> length (concat ls) = n * length ls.
Proof.
  induction 1 as [|l ls Hl _ IH]; cbn.
  - lia.
  - rewrite length_app, Hl, IH. lia.
Qed.

Lemma concat_uniform_chunk {A} (n : nat) (ls : list (list A)) i l :
  Forall (fun l => length l = n) ls -> ls !! i = Some l ->
  take n (drop (i * n) (concat ls)) = l.
Proof.
  intros Hall. revert i. induction Hall as [|l0 ls Hl0 _ IH]; intros i Hi.
  - discriminate.
  - destruct i as [|i]; cbn in Hi |- *.
    + injection Hi as ->. now apply take_app_length'.
    + rewrite drop_app_add' by (symmetry; exact Hl0). now apply IH.
Qed.

(** When every patch reports one count per species, [r_n_individuals]
    returns a matrix of [n_species()] rows and [size()] columns whose
    column [i] holds the counts of patch [i]. *)
Theorem r_n_individuals_by_column (m : Metacommunity) :
  Forall (fun p => length (p_r_n_individuals p) = n_species m) (patches m) ->
  exists counts,
    r_n_individuals m = Ok counts /\
    nrow counts = n_species m /\
    ncol counts = size m /\
    forall i p, patches m !! i = Some p ->
                column counts i = p_r_n_individuals p.
Proof.
  intros Hall.
  assert (Forall (fun l => length l = n_species m)
                 (map p_r_n_individuals (patches m))) as Hall'
    by now apply Forall_fmap.
  unfold r_n_individuals. rewrite fold_written. cbn [app].
  unfold write_from_begin.
  rewrite (concat_uniform_length _ _ Hall'), length_map.
  fold (size m). rewrite Nat.leb_refl, Nat.sub_diag. cbn [replicate].
  rewrite app_nil_r. eexists. split; [reflexivity|].
  split; [reflexivity|]. split; [reflexivity|].
  intros i p Hp. unfold column. cbn [nrow cells].
  apply concat_uniform_chunk; [exact Hall'|].
  change (map p_r_n_individuals (patches m))
    with (p_r_n_individuals <$> patches m).
  now rewrite list_lookup_fmap, Hp.
Qed.

(** ** Writing a state vector and reading it back *)

Lemma bind_Ok_inv {A B} (c : M A) (k : A -> M B) (w : World) b w' :
  bind c k w = (Ok b, w') ->
  exists a w1, c w = (Ok a, w1) /\ k a w1 = (Ok b, w').
Proof.
  unfold bind. destruct (c w) as [[a|e|u] w1]; try discriminate. eauto.
Qed.

Lemma patch_ode_values_set_Ok i it (w : World) it1 w1 :
  patch_ode_values_set i it w = (Ok it1, w1) ->
  exists p p', patches (self w) !! i = Some p /\
               p_ode_values_set p it = Some (p', it1) /\
               patches (self w1) = <[i := p']> (patches (self w)).
Proof.
  unfold patch_ode_values_set. intros E.
  apply bind_Ok_inv in E as (p & w0 & Hat & E).
  unfold patch_at in Hat.
  rewrite (bind_Ok _ _ w (patches (self w)) w) in Hat by reflexivity.
  destruct (patches (self w) !! i) as [p0|] eqn:Hp; [|discriminate].
  injection Hat as <- <-.
  destruct (p_ode_values_set p0 it) as [[p' it']|] eqn:Hset; [|discriminate].
  apply bind_Ok_inv in E as ([] & w2 & Hput & E).
  injection E as <- <-. rewrite put_patch_run in Hput.
  injection Hput as <-. exists p0, p'. repeat split; auto.
Qed.

Section Written.

Context `{!PatchWriteLaws D Strategy rng Patch}.

Lemma values_set_from (n k : nat) (it : list D) (w : World) it' w' :
  k + n = size (self w) ->
  for_each (seq k n) patch_ode_values_set it w = (Ok it', w') ->
  size (self w') = size (self w) /\
  take k (patches (self w')) = take k (patches (self w)) /\
  concat (map p_ode_values (drop k (patches (self w')))) ++ it' = it.
Proof.
  revert k it w. induction n as [|n IH]; intros k it w Hk E;
    unfold size in *.
  - cbn in E. injection E as <- <-. rewrite drop_ge by lia. auto.
  - cbn [seq for_each] in E.
    apply bind_Ok_inv in E as (it1 & w1 & Hstep & E).
    apply patch_ode_values_set_Ok in Hstep as (p & p' & Hp & Hset & Hps1).
    apply IH in E; [|rewrite Hps1, length_insert; lia].
    rewrite Hps1 in E. rewrite length_insert in E.
    destruct E as (Hsize & Htake & Hconcat).
    assert (patches (self w') !! k = Some p') as Hk'.
    { rewrite <- (lookup_take_lt _ (S k)) by lia. rewrite Htake.
      rewrite lookup_take_lt by lia. apply list_lookup_insert_eq. lia. }
    split; [exact Hsize|]. split.
    + apply (f_equal (take k)) in Htake.
      rewrite !take_take, Nat.min_l in Htake by lia.
      now rewrite take_insert_ge in Htake by lia.
    + rewrite (drop_S _ _ _ Hk'). cbn [map concat].
      rewrite <- app_assoc, Hconcat.
      now apply p_values_set_written with p.
Qed.

Lemma values_set_written_back (w : World) (y : list D) it' w' :
  ode_values_set y w = (Ok it', w') ->
  ode_values (self w') ++ it' = y.
Proof.
  unfold ode_values_set, for_each_patch. intros E.
  rewrite (bind_Ok _ _ w (size (self w)) w) in E by reflexivity.
  apply values_set_from in E as (_ & _ & E); [|reflexivity].
  now rewrite ode_values_concat.
Qed.

End Written.

Section Exact.

Context `{!PatchLaws D Strategy rng Patch}.
Context `{!PatchWriteLaws D Strategy rng Patch}.

Lemma ode_size_after_values_set (w : World) (y : list D) :
  ode_size (self (snd (ode_values_set y w))) = ode_size (self w).
Proof.
  pose proof (frame_ode_values_set y w) as E.
  apply frame_view_sizes in E. unfold ode_size.
  rewrite !fold_ode_size. change (@map) with (@fmap list _) in E.
  now rewrite E.
Qed.

Lemma values_set_consumed (w : World) (y : list D) it' w' :
  ode_values_set y w = (Ok it', w') ->
  length y = ode_size (self w) + length it'.
Proof.
  intros E. pose proof (ode_size_after_values_set w y) as Hsize.
  rewrite E in Hsize. cbn [snd] in Hsize.
  apply values_set_written_back in E.
  rewrite <- E, length_app, ode_values_length. lia.
Qed.

(** Whenever [ode_values_set] succeeds it has written what it consumed,
    and that is [ode_size()] entries: the state vector read back with
    [ode_values], followed by the rest of the cursor, is the cursor it
    was given. *)
Theorem ode_values_set_writes_what_it_consumes (w : World) (y : list D)
    it' w' :
  ode_values_set y w = (Ok it', w') ->
  ode_values (self w') ++ it' = y /\
  length (ode_values (self w')) = ode_size (self w) /\
  length y = ode_size (self w) + length it'.
Proof.
  intros E. pose proof (values_set_consumed _ _ _ _ E) as Hn.
  pose proof (values_set_written_back _ _ _ _ E) as Hy.
  split; [exact Hy|]. split; [|exact Hn].
  rewrite <- Hy, length_app in Hn. lia.
Qed.

(** [derivs], handed a vector of [ode_size()] entries, installs it:
    when it returns, [ode_values] reads that vector back and the
    derivative returned is [ode_rates] of the state installed; [time]
    plays no part. *)
Theorem derivs_installs_state (w : World) (time : D) (y : list D)
    dydt w' :
  length y = ode_size (self w) ->
  derivs time y w = (Ok dydt, w') ->
  ode_values (self w') = y /\ dydt = ode_rates (self w').
Proof.
  intros Hlen E. unfold derivs in E.
  apply bind_Ok_inv in E as (it' & w1 & Hset & E).
  injection E as <- <-.
  pose proof (values_set_consumed _ _ _ _ Hset) as Hn.
  apply values_set_written_back in Hset.
  assert (it' = []) as -> by (apply nil_length_inv; lia).
  rewrite app_nil_r in Hset. auto.
Qed.

Lemma past_end_for_each {A} (body : nat -> A -> M A) :
  (forall i a (w : World), ok_or_past_end (fst (body i a w))) ->
  forall idxs a (w : World), ok_or_past_end (fst (for_each idxs body a w)).
Proof.
  intros Hbody idxs. induction idxs as [|i idxs IH]; intros a w.
  - exact I.
  - cbn [for_each]. unfold bind. specialize (Hbody i a w).
    destruct (body i a w) as [[a'|e|u] w1]; cbn in Hbody |- *;
      [apply IH | contradiction | exact Hbody].
Qed.

Lemma past_end_patch_ode_values_set i it (w : World) :
  ok_or_past_end (fst (patch_ode_values_set i it w)).
Proof.
  unfold patch_ode_values_set.
  destruct (patches (self w) !! i) as [p|] eqn:Hp.
  - rewrite (bind_Ok _ _ w p w) by now apply patch_at_Some.
    destruct (p_ode_values_set p it) as [[p' it']|]; exact I.
  - rewrite (bind_Undefined _ _ w OutOfBounds w)
      by now apply patch_at_None.
    exact I.
Qed.

(** Handed a vector shorter than [ode_size()], [ode_values_set] reads
    past its end: the outcome is undefined, never a value and never an
    error raised. *)
Theorem ode_values_set_short_vector (w : World) (y : list D) :
  length y < ode_size (self w) ->
  fst (ode_values_set y w) = Undefined OutOfBounds.
Proof.
  intros Hlen.
  assert (ok_or_past_end (fst (ode_values_set y w))) as Hcase.
  { unfold ode_values_set, for_each_patch.
    rewrite (bind_Ok _ _ w (size (self w)) w) by reflexivity.
    apply past_end_for_each. intros i a w0.
    apply past_end_patch_ode_values_set. }
  destruct (ode_values_set y w) as [[it'|e|u] w'] eqn:E; cbn in Hcase |- *.
  - apply values_set_consumed in E. lia.
  - contradiction.
  - destruct u; try contradiction. reflexivity.
Qed.

End Exact.

(** ** The deterministic step and the clock *)

(** When [step_deterministic] returns, the age of the metacommunity is
    the time its solver reports. *)
Theorem step_deterministic_age_is_solver_time (w : World) w' :
  step_deterministic dzero w = (Ok tt, w') ->
  age (self w') = s_get_time (ode_solver (self w')).
Proof.
  unfold step_deterministic. intros E.
  apply bind_Ok_inv in E as (n & w1 & _ & E).
  apply bind_Ok_inv in E as (values & w2 & _ & E).
  apply bind_Ok_inv in E as (y & w3 & _ & E).
  apply bind_Ok_inv in E as (time & w4 & _ & E).
  apply bind_Ok_inv in E as ([] & w5 & _ & E).
  apply bind_Ok_inv in E as ([] & w6 & _ & E).
  apply bind_Ok_inv in E as (time' & w7 & Htime & E).
  unfold solver_get_time in Htime.
  apply bind_Ok_inv in Htime as ([] & w8 & Hlog & Htime).
  injection Hlog as <-. injection Htime as <- <-.
  injection E as <-. reflexivity.
Qed.

Section Failure.

Context `{!PatchLaws D Strategy rng Patch}.

(** When the deterministic part of [step] does not return, [step] ends
    there with the same outcome: the stochastic part is not run, no
    random number is drawn and the counts of individuals are those
    before the call. *)
Theorem step_stops_at_deterministic_failure (w : World) :
  is_ok (fst (step_deterministic dzero w)) = false ->
  step dzero w = step_deterministic dzero w /\
  generator (snd (step dzero w)) = generator w /\
  r_n_individuals (self (snd (step dzero w))) = r_n_individuals (self w).
Proof.
  intros Hfail.
  assert (step dzero w = step_deterministic dzero w) as Hstep.
  { unfold step, bind.
    destruct (step_deterministic dzero w) as [[[]|e|u] w1];
      [discriminate | reflexivity | reflexivity]. }
  rewrite Hstep. split; [reflexivity|].
  pose proof (frame_step_deterministic dzero w) as E.
  split.
  - unfold frame_view in E. now injection E.
  - unfold r_n_individuals.
    rewrite (frame_view_size _ _ E), !fold_written.
    rewrite (frame_view_counts _ _ E).
    assert (n_species (self (snd (step_deterministic dzero w)))
            = n_species (self w)) as ->; [|reflexivity].
    unfold frame_view in E. injection E as Hp _ _ _.
    unfold n_species. now rewrite Hp.
Qed.

End Failure.

(** ** Fewer seed counts than patches *)

Lemma for_each_app {A} (body : nat -> A -> M A) (l1 l2 : list nat) a
    (w : World) a1 w1 :
  for_each l1 body a w = (Ok a1, w1) ->
  for_each (l1 ++ l2) body a w = for_each l2 body a1 w1.
Proof.
  revert a w. induction l1 as [|i l1 IH]; intros a w E.
  - cbn in E. now injection E as <- <-.
  - cbn [for_each app] in E |- *.
    apply bind_Ok_inv in E as (a' & w' & Hbody & E).
    rewrite (bind_Ok _ _ _ _ _ Hbody). now apply IH.
Qed.

Section Short.

Context `{!SamplerLaws rng}.

Lemma add_seeds_draw_past_end pr i j seeds seeds_i (w : World) :
  seeds !! i = None ->
  fst (add_seeds_draw pr i (j, seeds, seeds_i) w) = Undefined OutOfBounds.
Proof.
  intros Hi. unfold add_seeds_draw, vector_at. now rewrite Hi.
Qed.

(** The inner loop of [add_seeds] runs over [size()] indices of
    [seeds]: called with fewer counts than there are patches, it reads
    [seeds] past its end in the first patch, whatever the generator
    draws. *)
Theorem add_seeds_reads_past_short_seeds (w : World) (seeds : list Z) :
  length seeds < size (self w) ->
  Forall int_count seeds ->
  fst (add_seeds seeds w) = Undefined OutOfBounds.
Proof.
  intros Hlen Hseeds. unfold add_seeds.
  rewrite (bind_Ok _ _ w (size (self w)) w) by reflexivity.
  apply fst_bind_Undefined. unfold for_each_patch.
  rewrite (bind_Ok _ _ w (size (self w)) w) by reflexivity.
  set (sz := size (self w)) in *.
  assert (sz <> 0) as Hsz0 by lia.
  assert (seq 0 sz = 0 :: seq 1 (sz - 1)) as Hseq1.
  { destruct sz as [|sz']; [lia|]. cbn. repeat f_equal. lia. }
  assert (seq 0 sz
          = seq 0 (length seeds)
            ++ length seeds :: seq (S (length seeds)) (sz - S (length seeds)))
    as Hsplit.
  { replace sz with (length seeds + S (sz - S (length seeds))) at 1 by lia.
    now rewrite seq_app. }
  destruct (valid_prob_recip sz Hsz0) as (q & Hrecip & Hq).
  destruct (inner_loop_ok q (seq 0 (length seeds)) (Z.of_nat sz) seeds
              (replicate sz 0%Z) w Hq Hseeds)
    as (seeds' & seeds_i' & w1 & Hinner & _ & Hlen').
  { apply Forall_forall. intros i Hi. apply elem_of_seq in Hi. lia. }
  rewrite Hseq1. cbn [for_each]. apply fst_bind_Undefined.
  unfold add_seeds_patch. rewrite Hrecip.
  apply fst_bind_Undefined.
  rewrite Hsplit, (for_each_app _ _ _ _ _ _ _ Hinner).
  cbn [for_each]. apply fst_bind_Undefined.
  apply add_seeds_draw_past_end. apply lookup_ge_None. lia.
Qed.

End Short.

Section Composition.

Context `{!SamplerLaws rng}.

(** With two or more patches the stochastic step cannot complete:
    whenever [births] returns counts after [deaths], [add_seeds] is
    handed one count per patch and reaches the conversion of NaN to
    [int] in the second patch. *)
Theorem step_stochastic_undefined_with_two_patches (w : World)
    (seeds : list Z) w1 :
  2 <= size (self w) ->
  births (snd (deaths w)) = (Ok seeds, w1) ->
  Forall int_count seeds ->
  fst (step_stochastic w) = Undefined NaNToInt.
Proof.
  intros Hsz Hbirths Hseeds. unfold step_stochastic.
  pose proof (deaths_run w) as Hdeaths.
  assert (size (self (snd (deaths w))) = size (self w)) as Hsz0.
  { rewrite Hdeaths. unfold size. cbn. apply thread_length. }
  assert (size (self w1) = size (self (snd (deaths w)))) as Hsz1.
  { pose proof (closure_births layout layout_put_patch
                  layout_with_generator (snd (deaths w))) as E.
    rewrite Hbirths in E. unfold layout in E. now injection E. }
  assert (length seeds = size (self (snd (deaths w)))) as Hlen.
  { revert Hbirths. unfold births, for_each_patch.
    rewrite (bind_Ok _ _ _ (size (self (snd (deaths w)))) (snd (deaths w)))
      by reflexivity.
    rewrite (bind_Ok _ _ _ (size (self (snd (deaths w)))) (snd (deaths w)))
      by reflexivity.
    intros E. apply (f_equal fst) in E. cbn [fst] in E.
    apply for_each_births_length in E.
    now rewrite length_replicate in E. }
  rewrite (bind_Ok _ _ w tt (snd (deaths w)))
    by (rewrite Hdeaths; reflexivity).
  rewrite (bind_Ok _ _ _ _ _ Hbirths).
  apply fst_bind_Undefined.
  apply add_seeds_second_patch_undefined; [lia | lia | exact Hseeds].
Qed.

End Composition.

(** ** The metacommunity without patches *)

(** A metacommunity without patches is inert: none of the loops is
    entered, so [deaths], [births], [add_seeds] and the stochastic step
    return at once and leave the world as it is, whatever seeds are
    handed over; there is no continuous state, and [ode_values_set]
    consumes nothing. *)
Theorem empty_metacommunity_is_inert (w : World) (seeds : list Z)
    (y : list D) (time : D) :
  size (self w) = 0 ->
  deaths w = (Ok tt, w) /\
  births w = (Ok [], w) /\
  add_seeds seeds w = (Ok [], w) /\
  step_stochastic w = (Ok tt, w) /\
  ode_size (self w) = 0 /\
  ode_values (self w) = [] /\
  ode_values_set y w = (Ok y, w) /\
  derivs time y w = (Ok [], w).
Proof.
  intros Hsz.
  assert (patches (self w) = []) as Hps by now apply nil_length_inv.
  assert (deaths w = (Ok tt, w)) as Hdeaths.
  { unfold deaths, for_each_patch.
    rewrite (bind_Ok _ _ w 0 w) by (unfold gets; now rewrite Hsz).
    reflexivity. }
  assert (births w = (Ok [], w)) as Hbirths.
  { unfold births, for_each_patch.
    rewrite (bind_Ok _ _ w 0 w) by (unfold gets; now rewrite Hsz).
    rewrite (bind_Ok _ _ w 0 w) by (unfold gets; now rewrite Hsz).
    reflexivity. }
  assert (forall s, add_seeds s w = (Ok [], w)) as Hadd.
  { intros s. unfold add_seeds, for_each_patch.
    rewrite (bind_Ok _ _ w 0 w) by (unfold gets; now rewrite Hsz).
    rewrite (bind_Ok _ _ w (Z.of_nat 0, s, []) w); [reflexivity|].
    rewrite (bind_Ok _ _ w 0 w) by (unfold gets; now rewrite Hsz).
    reflexivity. }
  assert (ode_values_set y w = (Ok y, w)) as Hset.
  { unfold ode_values_set, for_each_patch.
    rewrite (bind_Ok _ _ w 0 w) by (unfold gets; now rewrite Hsz).
    reflexivity. }
  repeat split; try assumption.
  - apply Hadd.
  - unfold step_stochastic.
    rewrite (bind_Ok _ _ _ _ _ Hdeaths), (bind_Ok _ _ _ _ _ Hbirths).
    now rewrite (bind_Ok _ _ _ _ _ (Hadd [])).
  - unfold ode_size. now rewrite Hps.
  - unfold ode_values. now rewrite Hps.
  - unfold derivs. rewrite (bind_Ok _ _ _ _ _ Hset).
    unfold gets, ode_rates. now rewrite Hps.
Qed.

(** ** A step that fails under [RNGScope] *)

(** When the solver raises an error in [r_step], the error reaches the
    caller and the host's generator state is written back as it was
    read: no random number has been drawn. *)
Theorem r_step_raises_without_drawing (w : World) (e : error) :
  fst (step_deterministic dzero (GetRNGstate w)) = Throw e ->
  fst (r_step dzero w) = Throw e /\
  seed (snd (r_step dzero w)) = seed w /\
  generator (snd (r_step dzero w)) = seed w.
Proof.
  intros Hfail.
  pose proof (closure_step_deterministic generator generator_put_patch
                (fun c w0 => eq_refl) (fun s w0 => eq_refl)
                (fun t w0 => eq_refl) (GetRNGstate w)) as Hgen.
  unfold r_step, RNGScope, step, bind.
  destruct (step_deterministic dzero (GetRNGstate w)) as [r w1].
  cbn [fst snd] in Hfail, Hgen. subst r. cbn. auto.
Qed.

(** ** What the deterministic step asks of the solver *)

Section Calls.

Context `{!PatchLaws D Strategy rng Patch}.

Lemma logs_at_solver_set_state (y : list D) (t : D) (w : World) :
  logs_at w [SetState y t] (solver_set_state y t).
Proof.
  unfold solver_set_state.
  apply (logs_at_bind _ _ _ [SetState y t] []); [apply logs_at_log_call|].
  intros _ _.
  apply (logs_at_bind _ _ _ [] []); [now apply logs_at_pure|]. intros n _.
  apply (logs_at_bind _ _ _ [] []); [now apply logs_at_pure|]. intros _ _.
  apply (logs_at_bind _ _ _ [] []); [now apply logs_at_pure|]. intros s _.
  apply logs_at_set_solver.
Qed.

(** [step_deterministic] hands the solver the whole state, which fills
    the buffer of [ode_size()] doubles exactly, together with the
    current age, and then asks for one step and for the time, in that
    order: [set_state] is always called, [step] and [get_time] follow
    as far as the step gets, and all three calls are made when it
    returns. *)
Theorem step_deterministic_solver_calls (w : World) :
  length (ode_values (self w)) = ode_size (self w) /\
  exists l,
    calls (snd (step_deterministic dzero w))
    = calls w ++ SetState (ode_values (self w)) (age (self w)) :: l /\
    l `prefix_of` [Step; GetTime] /\
    (is_ok (fst (step_deterministic dzero w)) = true ->
     l = [Step; GetTime]).
Proof.
  split; [apply ode_values_length|].
  pose proof (calls_step_deterministic dzero w) as H.
  rewrite packed_state in H by exact _. destruct H as (l & Hcalls & Hprefix).
  exists l. split; [exact Hcalls|]. split; [exact Hprefix|].
  set (y := ode_values (self w)) in *. set (t := age (self w)) in *.
  assert (step_deterministic dzero w
          = bind (solver_set_state y t)
                 (fun _ => bind solver_step
                   (fun _ => bind solver_get_time set_age)) w) as E.
  { unfold step_deterministic.
    rewrite (bind_Ok _ _ w (ode_size (self w)) w) by reflexivity.
    rewrite (bind_Ok _ _ w (ode_values (self w)) w) by reflexivity.
    rewrite (bind_Ok _ _ w (ode_values (self w)) w)
      by (unfold lift; now rewrite packed_state).
    now rewrite (bind_Ok _ _ w (age (self w)) w) by reflexivity. }
  assert (logs_at w ([SetState y t] ++ [Step] ++ [GetTime] ++ [])
            (bind (solver_set_state y t)
                  (fun _ => bind solver_step
                    (fun _ => bind solver_get_time set_age)))) as Hlog.
  { apply logs_at_bind; [apply logs_at_solver_set_state|]. intros _ _.
    apply logs_at_bind; [apply logs_at_solver_step|]. intros _ _.
    apply logs_at_bind; [apply logs_at_solver_get_time|]. intros t' _.
    apply logs_at_set_age. }
  destruct Hlog as (l1 & Hcalls1 & _ & Hok). rewrite <- E in Hcalls1, Hok.
  intros Hs. specialize (Hok Hs). subst l1.
  rewrite Hcalls in Hcalls1. apply app_inv_head in Hcalls1.
  cbn in Hcalls1. now injection Hcalls1.
Qed.

End Calls.

End Generic.
End Operations.

(** * The remaining operations on explicit inputs *)

Module OperationRuns.
Import Model Further Demo.

(** ** The stand-in patch writes what it consumes *)

Lemma cohort_values_set_reads_back c it c' it' :
  SpecPatch.cohort_values_set c it = Some (c', it') ->
  map SpecPatch.height c' ++ it' = it.
Proof.
  revert it c' it'. induction c as [|i c IH]; intros it c' it' E; cbn in E.
  - now injection E as <- <-.
  - destruct it as [|h it1]; [discriminate|].
    destruct (SpecPatch.cohort_values_set c it1) as [[c2 it2]|] eqn:Ec;
      [|discriminate].
    injection E as <- <-. cbn. f_equal. exact (IH _ _ _ Ec).
Qed.

Lemma species_values_set_reads_back spp it spp' it' :
  SpecPatch.species_values_set spp it = Some (spp', it') ->
  concat (map (map SpecPatch.height) spp') ++ it' = it.
Proof.
  revert it spp' it'. induction spp as [|c spp IH]; intros it spp' it' E;
    cbn in E.
  - now injection E as <- <-.
  - destruct (SpecPatch.cohort_values_set c it) as [[c1 it1]|] eqn:Ec;
      [|discriminate].
    destruct (SpecPatch.species_values_set spp it1) as [[spp2 it2]|] eqn:Es;
      [|discriminate].
    injection E as <- <-. cbn. rewrite <- app_assoc.
    rewrite (IH _ _ _ Es). exact (cohort_values_set_reads_back _ _ _ _ Ec).
Qed.

#[global] Instance spec_patch_write_laws
  : PatchWriteLaws Q SpecPatch.Strategy Tape.rng SpecPatch.Patch.
Proof.
  constructor. intros p it p' it' E. cbn in E |- *.
  unfold SpecPatch.Patch_ode_values_set in E.
  destruct (SpecPatch.species_values_set (SpecPatch.species p) it)
    as [[spp it1]|] eqn:Es; [|discriminate].
  injection E as <- <-. unfold SpecPatch.Patch_ode_values. cbn.
  exact (species_values_set_reads_back _ _ _ _ Es).
Qed.

(** ** Runs *)

(** Three patches and two species, one seedling everywhere. *)
Lemma r_add_seedlings_by_column_witness :
  r_add_seedlings three_columns (empty_world 3 2 7)
  = (Ok tt,
     rewritten
       (imap (fun i p => p_add_seedlings (column three_columns i) p)
             (patches (self (empty_world 3 2 7))))
       (generator (empty_world 3 2 7)) (empty_world 3 2 7)).
Proof.
  apply Operations.r_add_seedlings_by_column; reflexivity.
Defined.

(** The census of three seeded patches of two species. *)
Lemma r_n_individuals_by_column_witness :
  exists counts,
    r_n_individuals (self (seeded_world 3 2 7)) = Ok counts /\
    nrow counts = n_species (self (seeded_world 3 2 7)) /\
    ncol counts = size (self (seeded_world 3 2 7)) /\
    forall i p, patches (self (seeded_world 3 2 7)) !! i = Some p ->
                column counts i = p_r_n_individuals p.
Proof.
  apply Operations.r_n_individuals_by_column.
  vm_compute. repeat constructor.
Defined.

(** Two patches of one seedling each, handed three values: two are
    written, the third is left in the cursor. *)
Lemma ode_values_set_writes_what_it_consumes_witness :
  let w := seeded_world 2 1 7 in
  let r := ode_values_set [3; 4; 5]%Q w in
  r = (Ok [5%Q], snd r) /\
  ode_values (self (snd r)) ++ [5%Q] = [3; 4; 5]%Q /\
  length (ode_values (self (snd r))) = ode_size (self w) /\
  length [3; 4; 5]%Q = ode_size (self w) + length [5%Q].
Proof.
  assert (ode_values_set [3; 4; 5]%Q (seeded_world 2 1 7)
          = (Ok [5%Q], snd (ode_values_set [3; 4; 5]%Q (seeded_world 2 1 7))))
    as E by (vm_compute; reflexivity).
  split; [exact E|].
  exact (Operations.ode_values_set_writes_what_it_consumes _ _ _ _ E).
Defined.

(** [derivs] on the same two patches with a vector of two heights. *)
Lemma derivs_installs_state_witness :
  let w := seeded_world 2 1 7 in
  let r := derivs 0%Q [3; 4]%Q w in
  length [3; 4]%Q = ode_size (self w) /\
  r = (Ok [1; 1]%Q, snd r) /\
  ode_values (self (snd r)) = [3; 4]%Q /\
  [1; 1]%Q = ode_rates (self (snd r)).
Proof.
  assert (length [3; 4]%Q = ode_size (self (seeded_world 2 1 7))) as Hlen
    by (vm_compute; reflexivity).
  assert (derivs 0%Q [3; 4]%Q (seeded_world 2 1 7)
          = (Ok [1; 1]%Q, snd (derivs 0%Q [3; 4]%Q (seeded_world 2 1 7))))
    as E by (vm_compute; reflexivity).
  split; [exact Hlen|]. split; [exact E|].
  exact (Operations.derivs_installs_state _ _ _ _ _ Hlen E).
Defined.

(** One value for two individuals. *)
Lemma ode_values_set_short_vector_witness :
  length [3%Q] < ode_size (self (seeded_world 2 1 7)) /\
  fst (ode_values_set [3%Q] (seeded_world 2 1 7)) = Undefined OutOfBounds.
Proof.
  assert (length [3%Q] < ode_size (self (seeded_world 2 1 7))) as Hlen
    by (vm_compute; lia).
  split; [exact Hlen|].
  exact (Operations.ode_values_set_short_vector _ _ Hlen).
Defined.

(** One Euler step of one patch. *)
Lemma step_deterministic_age_is_solver_time_witness :
  let r := step_deterministic 0%Q (seeded_world 1 1 7) in
  r = (Ok tt, snd r) /\
  age (self (snd r)) = s_get_time (ode_solver (self (snd r))).
Proof.
  assert (step_deterministic 0%Q (seeded_world 1 1 7)
          = (Ok tt, snd (step_deterministic 0%Q (seeded_world 1 1 7))))
    as E by (vm_compute; reflexivity).
  split; [exact E|].
  exact (Operations.step_deterministic_age_is_solver_time 0%Q _ _ E).
Defined.

(** The calls of one Euler step of two seeded patches. *)
Lemma step_deterministic_solver_calls_witness :
  let w := seeded_world 2 1 7 in
  length (ode_values (self w)) = ode_size (self w) /\
  exists l,
    calls (snd (step_deterministic 0%Q w))
    = calls w ++ SetState (ode_values (self w)) (age (self w)) :: l /\
    l `prefix_of` [Step; GetTime] /\
    (is_ok (fst (step_deterministic 0%Q w)) = true -> l = [Step; GetTime]).
Proof.
  exact (Operations.step_deterministic_solver_calls 0%Q (seeded_world 2 1 7)).
Defined.

(** Three patches, two counts. *)
Lemma add_seeds_reads_past_short_seeds_witness :
  fst (add_seeds [5; 6]%Z (empty_world 3 3 7)) = Undefined OutOfBounds.
Proof.
  apply Operations.add_seeds_reads_past_short_seeds.
  - vm_compute. lia.
  - repeat constructor; unfold int_count, INT_MAX; lia.
Defined.

(** Two patches and two species, one seedling each. *)
Lemma step_stochastic_undefined_with_two_patches_witness :
  fst (step_stochastic (seeded_world 2 2 7)) = Undefined NaNToInt.
Proof.
  apply (Operations.step_stochastic_undefined_with_two_patches
           (seeded_world 2 2 7) [4; 4]%Z
           (snd (births (snd (deaths (seeded_world 2 2 7)))))).
  - vm_compute. lia.
  - vm_compute. reflexivity.
  - repeat constructor; unfold int_count, INT_MAX; lia.
Defined.

(** A metacommunity constructed with [n_patches = -3]. *)
Lemma empty_metacommunity_is_inert_witness :
  let w := empty_world (-3) 2 7 in
  size (self w) = 0 /\
  deaths w = (Ok tt, w) /\
  births w = (Ok [], w) /\
  add_seeds [3; 4]%Z w = (Ok [], w) /\
  step_stochastic w = (Ok tt, w) /\
  ode_size (self w) = 0 /\
  ode_values (self w) = [] /\
  ode_values_set [1%Q] w = (Ok [1%Q], w) /\
  derivs 0%Q [1%Q] w = (Ok [], w).
Proof.
  assert (size (self (empty_world (-3) 2 7)) = 0) as Hsz by reflexivity.
  split; [exact Hsz|].
  exact (Operations.empty_metacommunity_is_inert _ _ _ _ Hsz).
Defined.

Section StalledRuns.

#[local] Existing Instance Stalled.stalled_ops.

(** The solver gives up on two seeded patches. *)
Lemma step_stops_at_deterministic_failure_witness :
  let w := Stalled.stalled (seeded_world 2 2 7) in
  is_ok (fst (step_deterministic 0%Q w)) = false /\
  step 0%Q w = step_deterministic 0%Q w /\
  generator (snd (step 0%Q w)) = generator w /\
  r_n_individuals (self (snd (step 0%Q w))) = r_n_individuals (self w).
Proof.
  assert (is_ok (fst (step_deterministic 0%Q
                        (Stalled.stalled (seeded_world 2 2 7)))) = false)
    as Hfail by (vm_compute; reflexivity).
  split; [exact Hfail|].
  exact (Operations.step_stops_at_deterministic_failure 0%Q _ Hfail).
Defined.

(** [r_step] with that solver in a process whose generator is stale. *)
Lemma r_step_raises_without_drawing_witness :
  let w := Stalled.stalled (stale_generator (seeded_world 2 2 7) 11) in
  fst (step_deterministic 0%Q (GetRNGstate w)) = Throw IntegrationFailure /\
  fst (r_step 0%Q w) = Throw IntegrationFailure /\
  seed (snd (r_step 0%Q w)) = seed w /\
  generator (snd (r_step 0%Q w)) = seed w.
Proof.
  assert (fst (step_deterministic 0%Q
                 (GetRNGstate
                    (Stalled.stalled
                       (stale_generator (seeded_world 2 2 7) 11))))
          = Throw IntegrationFailure) as Hfail by (vm_compute; reflexivity).
  split; [exact Hfail|].
  exact (Operations.r_step_raises_without_drawing 0%Q _ _ Hfail).
Defined.

End StalledRuns.

End OperationRuns.

(** * The stochastic step, run twice *)

Module StochasticRuns.
Import Model Demo Mortal.

(** With one patch and one species the stochastic step returns, and
    what it returns follows the generator: from state 7 the individual
    dies and the patch is left empty, from state 8 it survives and its
    two seeds germinate beside it. *)
Lemma single_patch_step_follows_generator :
  fst (step_stochastic (thicket 1 1 7)) = Ok tt /\
  census (snd (step_stochastic (thicket 1 1 7))) = [[0]]%Z /\
  fst (step_stochastic (thicket 1 1 8)) = Ok tt /\
  census (snd (step_stochastic (thicket 1 1 8))) = [[3]]%Z /\
  Tape.state (generator (snd (step_stochastic (thicket 1 1 7))))
  <> Tape.state (generator (snd (step_stochastic (thicket 1 1 8)))).
Proof.
  vm_compute. repeat split; try reflexivity. discriminate.
Qed.


End StochasticRuns.
